(** * AI Job Hunter: the keyword-overlap scorer and the resume optimisation loop

    A shallow embedding of [agent_controller.py] (tokenizer, overlap ratio,
    fit label, [quick_score_jobs]) and of [llm_engine.py] ([_get_content],
    [_slice], [_extract_json], and the drafter / grader / router graph of
    [optimize_resume_iterative]).

    Conventions of the embedding.
    - A Python [str] is a [list ascii]; a character is a code point below 256.
    - A Python [float] is the rational it denotes ([Q]); [/] and [*] are exact.
    - A Python [set] of strings is a [gset (list ascii)].
    - Objects that the code reaches through references (the posting dicts and
      the lists that hold them) live in an explicit heap.
    - Code that raises is embedded with an explicit outcome type. *)

From Stdlib Require Import ZArith QArith Qround Ascii String List Bool Lia.
From stdpp Require Import base gmap strings list fin_maps.

Set Warnings "-register-all".

Local Open Scope nat_scope.
Local Open Scope list_scope.

(** ** Python strings *)

Abbreviation pystr := (list ascii).

(** A string literal of the source. *)
Definition lit (s : string) : pystr := list_ascii_of_string s.

Definition code (c : ascii) : nat := nat_of_ascii c.

Definition in_range (lo hi : nat) (c : ascii) : bool :=
  (lo <=? code c)%nat && (code c <=? hi)%nat.

(** [str.lower] on one code point below 256: [A-Z] and the upper-case
    letters of the Latin-1 block (all of U+00C0..U+00DE but the
    multiplication sign U+00D7) move up by 32. *)
Definition lower_char (c : ascii) : ascii :=
  if in_range 65 90 c then ascii_of_nat (code c + 32)
  else if in_range 192 222 c && negb (code c =? 215)%nat
       then ascii_of_nat (code c + 32)
  else c.

(** [text.lower()] *)
Definition lower (s : pystr) : pystr := map lower_char s.

(** [str.isspace] and the regex class [\s] on code points below 256. *)
Definition is_space (c : ascii) : bool :=
  in_range 9 13 c || in_range 28 32 c || (code c =? 133)%nat || (code c =? 160)%nat.

(** The regex class [[a-z0-9]]. *)
Definition is_word_char (c : ascii) : bool :=
  in_range 97 122 c || in_range 48 57 c.

(** The regex class [[\s\S]]: every character. *)
Definition any_char (c : ascii) : bool := is_space c || negb (is_space c).

(** [s.strip()] *)
Fixpoint lstrip (s : pystr) : pystr :=
  match s with
  | c :: s' => if is_space c then lstrip s' else s
  | [] => []
  end.
Definition strip (s : pystr) : pystr := rev (lstrip (rev (lstrip s))).

(** [s[:limit]] with a non-negative limit. *)
Definition slice_to (limit : nat) (s : pystr) : pystr := take limit s.

(** ** The regular expressions of the source

    The three patterns of the source are built from literal characters,
    character classes, one optional literal word, greedy and lazy stars over
    a class, a bounded-below greedy repetition of a class and one capture
    group.  [match_here] is the backtracking matcher of [re] on this
    fragment: alternatives are tried in the order [re] tries them and the
    first success wins. *)

Inductive atom :=
| Lit (c : ascii)                    (* a literal character *)
| Cls (p : ascii -> bool)            (* one character of a class *)
| OptWord (w : pystr)                (* (?:w)?  , greedy *)
| Star (p : ascii -> bool)           (* cls*    , greedy *)
| StarLazy (p : ascii -> bool)       (* cls*?   , lazy *)
| AtLeast (n : nat) (p : ascii -> bool)  (* cls{n,} , greedy *)
| GroupOpen                          (* ( *)
| GroupClose.                        (* ) *)

Fixpoint strip_prefix (w s : pystr) : option pystr :=
  match w, s with
  | [], _ => Some s
  | a :: w', b :: s' => if bool_decide (a = b) then strip_prefix w' s' else None
  | _ :: _, [] => None
  end.

(** Exactly [n] characters of class [p]. *)
Fixpoint eat (n : nat) (p : ascii -> bool) (s : pystr) : option pystr :=
  match n with
  | O => Some s
  | S n' => match s with
            | c :: s' => if p c then eat n' p s' else None
            | [] => None
            end
  end.

(** Try [a]; when it fails, try [b]. *)
Definition orelse {A} (a b : option A) : option A :=
  match a with Some r => Some r | None => b end.

(** A greedy star: one more character first, the rest of the pattern second. *)
Fixpoint star_greedy {R} (p : ascii -> bool) (k : pystr -> option R) (s : pystr) : option R :=
  match s with
  | c :: s' => if p c then orelse (star_greedy p k s') (k s) else k s
  | [] => k []
  end.

(** A lazy star: the rest of the pattern first, one more character second. *)
Fixpoint star_lazy {R} (p : ascii -> bool) (k : pystr -> option R) (s : pystr) : option R :=
  match k s with
  | Some r => Some r
  | None => match s with
            | c :: s' => if p c then star_lazy p k s' else None
            | [] => None
            end
  end.

(** [match_here pat s opened grp]: match [pat] at the start of [s].  [opened]
    is the text that was left when the group opened, [grp] the text the
    group captured.  The result is the text left after the match and the
    capture. *)
Fixpoint match_here (pat : list atom) (s opened : pystr) (grp : option pystr)
  : option (pystr * option pystr) :=
  match pat with
  | [] => Some (s, grp)
  | Lit c :: pat' =>
      match s with
      | x :: s' => if bool_decide (x = c) then match_here pat' s' opened grp else None
      | [] => None
      end
  | Cls p :: pat' =>
      match s with
      | x :: s' => if p x then match_here pat' s' opened grp else None
      | [] => None
      end
  | OptWord w :: pat' =>
      match strip_prefix w s with
      | Some s' => orelse (match_here pat' s' opened grp) (match_here pat' s opened grp)
      | None => match_here pat' s opened grp
      end
  | Star p :: pat' => star_greedy p (fun s' => match_here pat' s' opened grp) s
  | StarLazy p :: pat' => star_lazy p (fun s' => match_here pat' s' opened grp) s
  | AtLeast n p :: pat' =>
      match eat n p s with
      | Some s1 => star_greedy p (fun s' => match_here pat' s' opened grp) s1
      | None => None
      end
  | GroupOpen :: pat' => match_here pat' s s grp
  | GroupClose :: pat' =>
      match_here pat' s opened (Some (take (length opened - length s) opened))
  end.

(** The text a match consumed: what [s] has in front of [rest]. *)
Definition consumed (s rest : pystr) : pystr := take (length s - length rest) s.

(** [re.search(pat, s)]: the leftmost match; [m.group(0)] and [m.group(1)]. *)
Fixpoint re_search (pat : list atom) (s : pystr) : option (pystr * option pystr) :=
  match match_here pat s [] None with
  | Some (rest, g) => Some (consumed s rest, g)
  | None => match s with
            | [] => None
            | _ :: s' => re_search pat s'
            end
  end.

(** [re.findall(pat, s)] for a pattern without capture group: the matches
    from left to right, none overlapping.  [skip] counts the characters
    that still belong to the previous match; the scan resumes behind it
    (one character further after an empty match). *)
Fixpoint findall_from (pat : list atom) (s : pystr) (skip : nat) : list pystr :=
  match s with
  | [] => match skip, match_here pat [] [] None with
          | O, Some _ => [[]]
          | _, _ => []
          end
  | _ :: s' =>
      match skip with
      | S k => findall_from pat s' k
      | O => match match_here pat s [] None with
             | Some (rest, _) =>
                 consumed s rest :: findall_from pat s' (length (consumed s rest) - 1)
             | None => findall_from pat s' 0
             end
      end
  end.

Definition re_findall (pat : list atom) (s : pystr) : list pystr := findall_from pat s 0.

(** ** agent_controller.py *)

(** The values a posting field or a decoded JSON document can hold. *)
Inductive pyfloat :=
| FFinite (q : Q)
| FInf (negative : bool)
| FNaN.

Inductive pyval :=
| PNone
| PBool (b : bool)
| PInt (z : Z)
| PFloat (f : pyfloat)
| PStr (s : pystr)
| PList (l : list pyval)
| PDict (d : gmap pystr pyval).

(** [r"[a-z0-9]{2,}"] *)
Definition word_pattern : list atom := [AtLeast 2 is_word_char].

(** [_tokenize]: the argument is any Python value; [not text] holds of the
    empty string, [not isinstance(text, str)] of every value but a string. *)
Definition _tokenize (text : pyval) : gset pystr :=
  match text with
  | PStr [] => ∅
  | PStr s => list_to_set (re_findall word_pattern (lower s))
  | _ => ∅
  end.


(** Fit thresholds (overlap ratio): 0.25 and 0.12. *)
Definition OVERLAP_GOOD : Q := 25 # 100.
Definition OVERLAP_STRETCH : Q := 12 # 100.

(** [len(s)] as a float. *)
Definition float_of_len (n : nat) : Q := inject_Z (Z.of_nat n).

(** [_overlap_ratio]: |resume ∩ job| / |job|, 0 if job is empty. *)
Definition _overlap_ratio (resume_tokens job_tokens : gset pystr) : Q :=
  if bool_decide (job_tokens = ∅) then 0%Q
  else
    let inter := size (resume_tokens ∩ job_tokens) in
    (float_of_len inter / float_of_len (size job_tokens))%Q.

(** The three labels; [label_text] is the literal the source returns (the
    UTF-8 bytes of the literal, pictograph included). *)
Inductive fit_label := GoodFit | Stretch | NotRecommended.

Definition label_text (l : fit_label) : pystr :=
  match l with
  | GoodFit => lit "✅ Good Fit"
  | Stretch => lit "⚠️ Stretch"
  | NotRecommended => lit "❌ Not Recommended"
  end.

(** [_fit_label] *)
Definition _fit_label (ratio : Q) : fit_label :=
  if Qle_bool OVERLAP_GOOD ratio then GoodFit
  else if Qle_bool OVERLAP_STRETCH ratio then Stretch
  else NotRecommended.

(** The order of the labels, worst first. *)
Definition label_rank (l : fit_label) : nat :=
  match l with NotRecommended => 0 | Stretch => 1 | GoodFit => 2 end.

(** [round(x)] of a float: the nearest integer, a tie goes to the even one. *)
Definition py_round (x : Q) : Z :=
  let f := Qfloor x in
  match (x - inject_Z f ?= 1 # 2)%Q with
  | Lt => f
  | Gt => (f + 1)%Z
  | Eq => if Z.even f then f else (f + 1)%Z
  end.

(** [bool(v)] *)
Definition truthy (v : pyval) : bool :=
  match v with
  | PNone => false
  | PBool b => b
  | PInt z => negb (z =? 0)%Z
  | PFloat (FFinite q) => negb (Qeq_bool q 0)
  | PFloat _ => true
  | PStr s => negb (bool_decide (s = []))
  | PList l => negb (bool_decide (length l = 0))
  | PDict d => negb (bool_decide (d = ∅))
  end.

(** [v or ""] *)
Definition or_empty (v : pyval) : pyval := if truthy v then v else PStr [].

(** ** The heap of [quick_score_jobs]

    The posting dicts and the lists of postings are objects reached by
    reference.  The values of a posting's fields are held by value: the
    function never writes into them. *)

Abbreviation loc := positive.

Inductive obj :=
| ODict (d : gmap pystr pyval)
| OList (items : list loc).

Abbreviation heap := (gmap loc obj).

(** A new object. *)
Definition alloc (o : obj) (h : heap) : loc * heap :=
  let l := fresh (dom h) in (l, <[l := o]> h).

Definition heap_dict (h : heap) (l : loc) : option (gmap pystr pyval) :=
  match h !! l with Some (ODict d) => Some d | _ => None end.

Definition heap_list (h : heap) (l : loc) : option (list loc) :=
  match h !! l with Some (OList items) => Some items | _ => None end.

(** [d.get(key)]: [None] of Python for a missing key. *)
Definition dict_get (h : heap) (l : loc) (key : pystr) : option pyval :=
  d ← heap_dict h l; Some (default PNone (d !! key)).

(** [d[key] = v] *)
Definition dict_setitem (l : loc) (key : pystr) (v : pyval) (h : heap) : option heap :=
  d ← heap_dict h l; Some (<[l := ODict (<[key := v]> d)]> h).

(** [xs.append(x)] *)
Definition list_append (l : loc) (x : loc) (h : heap) : option heap :=
  items ← heap_list h l; Some (<[l := OList (items ++ [x])]> h).

Section QuickScore.

(** What an f-string writes for a value that is not a string (Python's
    own formatting of numbers, [None] and containers). *)
Variable format_other : pyval -> pystr.

Definition py_format (v : pyval) : pystr :=
  match v with PStr s => s | _ => format_other v end.

(** The body of the loop of [quick_score_jobs] for the posting [j]. *)
Definition score_one (resume_tokens : gset pystr) (out j : loc) (h : heap) : option heap :=
  d ← heap_dict h j;
  let '(job, h) := alloc (ODict d) h in                      (* job = dict(j) *)
  desc ← or_empty <$> dict_get h job (lit "description");
  title ← or_empty <$> dict_get h job (lit "title");
  let combined := py_format title ++ lit " " ++ py_format desc in
  let job_tokens := _tokenize (PStr combined) in
  let ratio := _overlap_ratio resume_tokens job_tokens in
  h ← dict_setitem job (lit "fit_label") (PStr (label_text (_fit_label ratio))) h;
  h ← dict_setitem job (lit "overlap_score") (PInt (py_round (ratio * 100))) h;
  list_append out job h.

Fixpoint score_loop (resume_tokens : gset pystr) (out : loc) (js : list loc) (h : heap)
  : option heap :=
  match js with
  | [] => Some h
  | j :: js' => h ← score_one resume_tokens out j h; score_loop resume_tokens out js' h
  end.

(** [AgentController.quick_score_jobs].  [jobs] is a reference to a list of
    references to dicts, as the annotation [list[dict[str, Any]]] has it;
    on a heap where it is not, the embedding gives no result.  The loop
    walks the items [jobs] held at entry: nothing in the loop writes to
    [jobs]. *)
Definition quick_score_jobs (resume_text : pyval) (jobs : loc) (h : heap)
  : option (loc * heap) :=
  let resume_tokens := _tokenize (or_empty resume_text) in
  let '(out, h) := alloc (OList []) h in
  js ← heap_list h jobs;
  h ← score_loop resume_tokens out js h;
  Some (out, h).

(** What the loop computes for a posting with the fields [d], as a
    function of the fields alone. *)
Definition field_text (d : gmap pystr pyval) (key : pystr) : pystr :=
  py_format (or_empty (default PNone (d !! key))).

Definition posting_ratio (resume_text : pyval) (d : gmap pystr pyval) : Q :=
  _overlap_ratio (_tokenize (or_empty resume_text))
    (_tokenize (PStr (field_text d (lit "title") ++ lit " " ++ field_text d (lit "description")))).

Definition scored (resume_text : pyval) (d : gmap pystr pyval) : gmap pystr pyval :=
  <[lit "overlap_score" := PInt (py_round (posting_ratio resume_text d * 100))]>
    (<[lit "fit_label" := PStr (label_text (_fit_label (posting_ratio resume_text d)))]> d).

End QuickScore.

(** ** llm_engine.py *)

Definition CONTEXT_LIMIT : nat := 2000.
Definition MAX_REVISION_RETRIES : Z := 2.
Definition SCORE_GOOD_ENOUGH : Z := 8.

(** The recursion limit of a compiled LangGraph graph: the number of node
    executions after which [invoke] raises [GraphRecursionError]. *)
Definition RECURSION_LIMIT : nat := 25.

(** The exceptions of a run.  [ProviderError] is whatever the provider
    raises; its flag says whether it is an instance of [Exception] (a
    network or authentication error is, [KeyboardInterrupt] is not).
    [StopException] is what [st.stop()] raises. *)
Inductive exn :=
| ProviderError (is_exception : bool) (text : pystr)
| StopException
| AttributeError (receiver : pyval) (attribute : pystr)
| ValueError (argument : pyval)
| TypeError (argument : pyval)
| OverflowError
| GraphRecursionError.

(** [isinstance(e, Exception)]: Streamlit derives [StopException] from
    [BaseException], beside [Exception], so that [st.stop()] ends the
    script through the handlers of the script. *)
Definition is_Exception (e : exn) : bool :=
  match e with
  | ProviderError b _ => b
  | StopException => false
  | _ => true
  end.

Inductive result (A : Type) :=
| Ok (a : A)
| Raise (e : exn).
Arguments Ok {A} a.
Arguments Raise {A} e.

(** What [llm.invoke] hands back. *)
Inductive response :=
| RNone                              (* None *)
| RMessage (content : pyval)         (* an object with a [content] attribute *)
| RDict (d : gmap pystr pyval)       (* a dict *)
| ROther (v : pyval).                (* anything else *)

Inductive role := RoleSystem | RoleHuman.
Definition message : Type := role * pystr.

(** What a run leaves behind: the number of provider invocations and, in
    order, the node executions, the texts written to the status container
    and the texts given to [st.error]. *)
Inductive node := Drafter | Grader.

Inductive event :=
| EvNode (n : node)
| EvInvoke (n : nat) (messages : list message)
| EvStatus (text : pystr)
| EvStError (text : pystr).

Record world := { calls : nat; trace : list event }.

Definition M (A : Type) : Type := world -> result A * world.

Definition ret {A} (a : A) : M A := fun w => (Ok a, w).
Definition raise {A} (e : exn) : M A := fun w => (Raise e, w).
Definition bind {A B} (m : M A) (k : A -> M B) : M B :=
  fun w => match m w with
           | (Ok a, w') => k a w'
           | (Raise e, w') => (Raise e, w')
           end.
Definition note (ev : event) (w : world) : world :=
  {| calls := calls w; trace := trace w ++ [ev] |}.
Definition emit (ev : event) : M unit := fun w => (Ok tt, note ev w).

(** The world behind one invocation of the provider. *)
Definition asked (messages : list message) (w : world) : world :=
  {| calls := S (calls w); trace := trace w ++ [EvInvoke (calls w) messages] |}.
Definition lift {A} (r : result A) : M A := fun w => (r, w).

Notation "'let!' x ':=' m 'in' k" := (bind m (fun x => k))
  (at level 10, x name, m at level 100, k at level 200, only parsing).
Notation "'run!' m 'in' k" := (bind m (fun _ => k))
  (at level 10, m at level 100, k at level 200, only parsing).

(** What the program is run against: the secrets, the provider, the JSON
    decoder and Python's own formatting. *)
Record runtime := {
  has_key : bool;                                  (* "GEMINI_API_KEY" in st.secrets *)
  llm_reply : nat -> list message -> result response;
                                                   (* the n-th [llm.invoke] *)
  json_loads : pystr -> option pyval;              (* [None]: it raised *)
  format_other : pyval -> pystr;                   (* f-string of a non-string *)
  exn_str : exn -> pystr                           (* [str(e)] *)
}.

Definition nl : pystr := [ascii_of_nat 10].
Definition dq : pystr := [ascii_of_nat 34].

(** [v.strip()]: only a string has the method. *)
Definition str_strip (v : pyval) : result pystr :=
  match v with
  | PStr s => Ok (strip s)
  | _ => Raise (AttributeError v (lit "strip"))
  end.

(** [_get_content] *)
Definition _get_content (resp : response) (fmt : pyval -> pystr) : result pystr :=
  match resp with
  | RNone => Ok []
  | RMessage content => str_strip (or_empty content)
  | RDict d =>
      let get k := default PNone (d !! lit k) in
      let msg := if truthy (get "message") then get "message" else get "content" in
      match msg with
      | PDict m => str_strip (or_empty (default PNone (m !! lit "content")))
      | _ => str_strip (or_empty msg)
      end
  | ROther v => Ok (strip (py_format fmt v))
  end.

(** [_slice]: [(s or "")[:limit]]; [None] of [option] is Python's [None]. *)
Definition _slice (s : option pystr) (limit : nat) : pystr :=
  slice_to limit (default [] s).

(** [r"```(?:json)?\s*(\{[\s\S]*?\})\s*```"] *)
Definition fence : list atom := [Lit "`"; Lit "`"; Lit "`"]%char.
Definition fenced_pattern : list atom :=
  fence ++ [OptWord (lit "json"); Star is_space; GroupOpen; Lit "{"%char;
            StarLazy any_char; Lit "}"%char; GroupClose; Star is_space] ++ fence.

(** [r"\{[\s\S]*\}"] *)
Definition braces_pattern : list atom := [Lit "{"%char; Star any_char; Lit "}"%char].

(** The three strategies of [_extract_json], each with its own [try]. *)
Definition from_fenced (loads : pystr -> option pyval) (text : pystr) : option pyval :=
  match re_search fenced_pattern text with
  | Some (_, Some g1) => loads g1
  | _ => None
  end.

Definition from_braces (loads : pystr -> option pyval) (text : pystr) : option pyval :=
  match re_search braces_pattern text with
  | Some (g0, _) => loads g0
  | None => None
  end.

(** [_extract_json]: the value a strategy decoded ([json.loads] gives
    [None] for the document [null]) or [None]. *)
Definition _extract_json (loads : pystr -> option pyval) (text : pystr) : pyval :=
  let text := strip text in
  match from_fenced loads text with
  | Some v => v
  | None =>
      match from_braces loads text with
      | Some v => v
      | None => default PNone (loads text)
      end
  end.

(** [int(s)] of a string: blanks around, a sign, decimal digits, single
    underscores between digits. *)
Definition is_digit (c : ascii) : bool := in_range 48 57 c.
Definition digit_val (c : ascii) : Z := Z.of_nat (code c - 48).

Fixpoint int_digits (s : pystr) (acc : Z) (after_digit : bool) : option Z :=
  match s with
  | [] => if after_digit then Some acc else None
  | c :: s' =>
      if is_digit c then int_digits s' (10 * acc + digit_val c)%Z true
      else if bool_decide (c = "_"%char) && after_digit then int_digits s' acc false
      else None
  end.

Definition int_of_str (s : pystr) : option Z :=
  match strip s with
  | "-"%char :: ds => Z.opp <$> int_digits ds 0%Z false
  | "+"%char :: ds => int_digits ds 0%Z false
  | ds => int_digits ds 0%Z false
  end.

(** [int(v)] *)
Definition py_int (v : pyval) : result Z :=
  match v with
  | PInt z => Ok z
  | PBool b => Ok (if b then 1 else 0)%Z
  | PFloat (FFinite q) => Ok (Z.quot (Qnum q) (Zpos (Qden q)))
  | PFloat (FInf _) => Raise OverflowError
  | PFloat FNaN => Raise (ValueError v)
  | PStr s => match int_of_str s with Some z => Ok z | None => Raise (ValueError v) end
  | PNone | PList _ | PDict _ => Raise (TypeError v)
  end.

(** [parsed.get(key, default)]: only a dict has the method. *)
Definition py_get (parsed : pyval) (key : pystr) (dflt : pyval) : result pyval :=
  match parsed with
  | PDict d => Ok (default dflt (d !! key))
  | _ => Raise (AttributeError parsed (lit "get"))
  end.

(** [ResumeState]; every key is set by the initial state. *)
Record ResumeState := {
  original_resume : pystr;
  job_description : pystr;
  current_draft : pystr;
  feedback : pyval;
  score : Z;
  revision_count : Z
}.

(** What a node returns: the keys it sets. *)
Record update := {
  set_current_draft : option pystr;
  set_revision_count : option Z;
  set_score : option Z;
  set_feedback : option pyval
}.

(** LangGraph writes the keys a node returned into the state. *)
Definition apply_update (u : update) (st : ResumeState) : ResumeState :=
  {| original_resume := original_resume st;
     job_description := job_description st;
     current_draft := default (current_draft st) (set_current_draft u);
     feedback := default (feedback st) (set_feedback u);
     score := default (score st) (set_score u);
     revision_count := default (revision_count st) (set_revision_count u) |}.

Inductive route := ToDrafter | ToEnd.

(** [x or y] on strings. *)
Definition str_or (x y : pystr) : pystr := match x with [] => y | _ => x end.

Definition UNGRADED : pystr := lit "Could not grade.".

Section Engine.

Variable R : runtime.

(** [status_container and hasattr(status_container, "write")] *)
Variable status_container : bool.

Definition told (text : pystr) (w : world) : world :=
  if status_container then note (EvStatus text) w else w.

Definition status_write (text : pystr) : M unit := fun w => (Ok tt, told text w).

(** [_get_llm]: a missing key is shown with [st.error] and the script is
    stopped with [st.stop()]. *)
Definition MISSING_KEY : pystr := lit "Missing GEMINI_API_KEY in secrets.toml".

Definition _get_llm : M unit :=
  if has_key R then ret tt
  else run! emit (EvStError MISSING_KEY) in
       raise StopException.

(** [llm.invoke(messages)] *)
Definition llm_invoke (messages : list message) : M response :=
  fun w => (llm_reply R (calls w) messages, asked messages w).

Definition drafter_system : pystr :=
  lit "STRICT RULES: You must ONLY use facts present in the 'ORIGINAL RESUME'. "
  ++ lit "Do NOT add tools (e.g., Docker, AWS) if the user didn't list them. "
  ++ lit "Output ONLY the resume text, no preamble or commentary.".

(** The messages [drafter_node] builds for the provider. *)
Definition drafter_messages (state : ResumeState) : list message :=
  let original := _slice (Some (original_resume state)) CONTEXT_LIMIT in
  let job_desc_short := _slice (Some (job_description state)) CONTEXT_LIMIT in
  let current := str_or (current_draft state) original in
  let feedback := or_empty (feedback state) in
  let revision := revision_count state in
  let user :=
    if (revision =? 0)%Z then
      lit "ORIGINAL RESUME (use only these facts):" ++ nl ++ original ++ nl ++ nl
      ++ lit "JOB DESCRIPTION (tailor wording to match, but do not add skills not in the resume):"
      ++ nl ++ job_desc_short ++ nl ++ nl
      ++ lit "Rewrite the resume to match the job. Output ONLY the resume text."
    else
      lit "Current draft (first 2000 chars):" ++ nl ++ _slice (Some current) CONTEXT_LIMIT
      ++ nl ++ nl
      ++ lit "Job (first 2000 chars):" ++ nl ++ job_desc_short ++ nl ++ nl
      ++ lit "Grader feedback: " ++ py_format (format_other R) feedback ++ nl ++ nl
      ++ lit "Revise the draft using ONLY facts from the ORIGINAL RESUME. Output ONLY the resume text."
  in
  [(RoleSystem, drafter_system); (RoleHuman, user)].

Definition DRAFTER_STATUS : pystr := lit "📝 Drafter: fact-checking and drafting…".
Definition GRADER_STATUS : pystr := lit "📊 Grader: checking against job description…".

Definition drafter_node (state : ResumeState) : M update :=
  run! status_write DRAFTER_STATUS in
  let original := _slice (Some (original_resume state)) CONTEXT_LIMIT in
  let current := str_or (current_draft state) original in
  let revision := revision_count state in
  run! _get_llm in
  let! msg := llm_invoke (drafter_messages state) in
  let! draft := lift (_get_content msg (format_other R)) in
  let draft := str_or draft current in
  ret {| set_current_draft := Some draft;
         set_revision_count := Some (revision + 1)%Z;
         set_score := None;
         set_feedback := None |}.

(** The part of [grader_node] behind [_get_content]: the grade of the
    text [raw]. *)
Definition grade_of (raw : pystr) : result (Z * pyval) :=
  match raw with
  | [] => Ok (0%Z, PStr UNGRADED)
  | _ =>
      let parsed := _extract_json (json_loads R) raw in
      if truthy parsed then
        match py_get parsed (lit "score") (PInt 0) with
        | Raise e => Raise e
        | Ok sc =>
            match py_int sc with
            | Raise e => Raise e
            | Ok score =>
                match py_get parsed (lit "feedback") (PStr UNGRADED) with
                | Raise e => Raise e
                | Ok fb => Ok (score, fb)
                end
            end
        end
      else Ok (0%Z, PStr UNGRADED)
  end.

(** The message [grader_node] builds for the provider. *)
Definition grader_messages (state : ResumeState) : list message :=
  let current := _slice (Some (current_draft state)) CONTEXT_LIMIT in
  let job_desc_short := _slice (Some (job_description state)) CONTEXT_LIMIT in
  let original := _slice (Some (original_resume state)) CONTEXT_LIMIT in
  let prompt :=
    lit "ORIGINAL RESUME (ground truth):" ++ nl ++ original ++ nl ++ nl
    ++ lit "DRAFT TO GRADE:" ++ nl ++ current ++ nl ++ nl
    ++ lit "JOB DESCRIPTION:" ++ nl ++ job_desc_short ++ nl ++ nl
    ++ lit "Grade the DRAFT. If it adds skills/tools/experience NOT in the ORIGINAL RESUME (hallucinations), "
    ++ lit "give a LOW score (1-4). If it stays factual and matches the job, give a higher score (5-10). "
    ++ lit "Output ONLY valid JSON: { " ++ dq ++ lit "score" ++ dq ++ lit ": <1-10 integer>, "
    ++ dq ++ lit "feedback" ++ dq ++ lit ": " ++ dq ++ lit "short actionable feedback" ++ dq ++ lit " }"
  in
  [(RoleHuman, prompt)].

Definition grader_node (state : ResumeState) : M update :=
  run! status_write GRADER_STATUS in
  run! _get_llm in
  let! msg := llm_invoke (grader_messages state) in
  let! raw := lift (_get_content msg (format_other R)) in
  let! grade := lift (grade_of raw) in
  ret {| set_current_draft := None;
         set_revision_count := None;
         set_score := Some (fst grade);
         set_feedback := Some (snd grade) |}.

Definition router (state : ResumeState) : route :=
  if (SCORE_GOOD_ENOUGH <=? score state)%Z || (MAX_REVISION_RETRIES <=? revision_count state)%Z
  then ToEnd else ToDrafter.

(** The compiled graph: entry point [drafter], the edge from [drafter] to
    [grader] and the conditional edges behind [grader]. *)
Definition node_body (n : node) : ResumeState -> M update :=
  match n with Drafter => drafter_node | Grader => grader_node end.

(** One execution of a node, noted in the trace. *)
Definition exec_node (n : node) (state : ResumeState) : M update :=
  run! emit (EvNode n) in node_body n state.

Definition successor (n : node) (state : ResumeState) : option node :=
  match n with
  | Drafter => Some Grader
  | Grader => match router state with ToDrafter => Some Drafter | ToEnd => None end
  end.

(** [app.invoke]: run the node, write its keys, follow the edge; [steps]
    is what is left of the recursion limit. *)
Fixpoint graph_invoke (steps : nat) (n : node) (state : ResumeState) : M ResumeState :=
  match steps with
  | O => raise GraphRecursionError
  | S steps' =>
      let! u := exec_node n state in
      let state' := apply_update u state in
      match successor n state' with
      | Some n' => graph_invoke steps' n' state'
      | None => ret state'
      end
  end.

Definition initial_state (resume job_desc : option pystr) : ResumeState :=
  {| original_resume := default [] resume;
     job_description := default [] job_desc;
     current_draft := default [] resume;
     feedback := PStr [];
     score := 0;
     revision_count := 0 |}.

(** [try: ... except Exception as e: ...]: an exception that is no
    instance of [Exception] passes the handler by. *)
Definition try_except {A} (body : M A) (handler : exn -> M A) : M A :=
  fun w => match body w with
           | (Ok a, w') => (Ok a, w')
           | (Raise e, w') => if is_Exception e then handler e w' else (Raise e, w')
           end.

(** [optimize_resume_iterative]; [None] is Python's [None].  The handler
    returns from the function: [inr] carries its value past the code behind
    the [try]. *)
Definition optimize_resume_iterative (resume job_desc : option pystr) : M pystr :=
  let! tried :=
    try_except
      (let! final_state :=
         graph_invoke RECURSION_LIMIT Drafter (initial_state resume job_desc) in
       ret (inl final_state))
      (fun e =>
         run! status_write (lit "❌ Error: " ++ exn_str R e) in
         ret (inr (default [] resume ++ nl ++ nl
                   ++ lit "[Error: " ++ exn_str R e ++ lit "]"))) in
  match tried with
  | inr annotated => ret annotated
  | inl final_state =>
      let out := str_or (current_draft final_state) (default [] resume) in
      run! status_write (lit "✅ Done.") in
      ret out
  end.

End Engine.

(** A fresh world. *)
Definition world0 : world := {| calls := 0; trace := [] |}.

(** How often a node ran, and how often the provider was invoked. *)
Definition is_run_of (n : node) (ev : event) : bool :=
  match ev, n with
  | EvNode Drafter, Drafter | EvNode Grader, Grader => true
  | _, _ => false
  end.

Definition node_runs (n : node) (w : world) : nat :=
  length (List.filter (is_run_of n) (trace w)).

(** ** A JSON decoder and scripted providers, to run the program on
    concrete provider replies

    [json_decode] follows [json.loads] on the documents made of objects,
    arrays, strings with the short escapes, integers and the three literals;
    it gives no result on anything else (a number with a fraction or an
    exponent, [\u] escapes, [NaN]).  The theorems below hold for every
    decoder; this one serves where a reply has to be decoded for real. *)

Definition is_json_space (c : ascii) : bool :=
  bool_decide (c = " "%char) || in_range 9 10 c || (code c =? 13).

Fixpoint skip_ws (s : pystr) : pystr :=
  match s with
  | c :: s' => if is_json_space c then skip_ws s' else s
  | [] => []
  end.

Definition unescape (c : ascii) : option ascii :=
  if bool_decide (c = "n"%char) then Some (ascii_of_nat 10)
  else if bool_decide (c = "t"%char) then Some (ascii_of_nat 9)
  else if bool_decide (c = "r"%char) then Some (ascii_of_nat 13)
  else if bool_decide (c = "b"%char) then Some (ascii_of_nat 8)
  else if bool_decide (c = "f"%char) then Some (ascii_of_nat 12)
  else if bool_decide (c = "/"%char) then Some c
  else if bool_decide (c = "\"%char) then Some c
  else if (code c =? 34) then Some c
  else None.

(** The characters of a string up to its closing quote.  A control character
    inside a string is an error, as it is for [json.loads]. *)
Fixpoint string_body (s acc : pystr) : option (pystr * pystr) :=
  match s with
  | [] => None
  | c :: s' =>
      if (code c =? 34) then Some (rev acc, s')
      else if bool_decide (c = "\"%char) then
        match s' with
        | e :: s'' => match unescape e with
                      | Some x => string_body s'' (x :: acc)
                      | None => None
                      end
        | [] => None
        end
      else if (code c <? 32) then None
      else string_body s' (c :: acc)
  end.

Fixpoint digits (s : pystr) (acc : Z) : Z * pystr :=
  match s with
  | c :: s' => if is_digit c then digits s' (10 * acc + digit_val c)%Z else (acc, s)
  | [] => (acc, [])
  end.

(** An integer: [0], or a digit from 1 to 9 and more digits. *)
Definition natural (s : pystr) : option (Z * pystr) :=
  match s with
  | c :: s' =>
      if bool_decide (c = "0"%char) then Some (0%Z, s')
      else if is_digit c then Some (digits s 0%Z)
      else None
  | [] => None
  end.

Definition starts_fraction (s : pystr) : bool :=
  match s with
  | c :: _ => bool_decide (c = "."%char) || bool_decide (c = "e"%char) || bool_decide (c = "E"%char)
  | [] => false
  end.

Definition number (s : pystr) : option (pyval * pystr) :=
  let '(sign, body) := match s with
                       | "-"%char :: s' => ((-1)%Z, s')
                       | _ => (1%Z, s)
                       end in
  match natural body with
  | Some (n, rest) => if starts_fraction rest then None else Some (PInt (sign * n), rest)
  | None => None
  end.

Definition keyword (w : string) (v : pyval) (s : pystr) : option (pyval * pystr) :=
  match strip_prefix (lit w) s with
  | Some rest => Some (v, rest)
  | None => None
  end.

Fixpoint json_value (fuel : nat) (s : pystr) : option (pyval * pystr) :=
  match fuel with
  | O => None
  | S fuel' =>
      match skip_ws s with
      | [] => None
      | c :: s' =>
          if bool_decide (c = "{"%char) then
            match skip_ws s' with
            | "}"%char :: rest => Some (PDict ∅, rest)
            | _ => json_members fuel' s' ∅
            end
          else if bool_decide (c = "["%char) then
            match skip_ws s' with
            | "]"%char :: rest => Some (PList [], rest)
            | _ => json_elements fuel' s' []
            end
          else if (code c =? 34) then
            match string_body s' [] with
            | Some (str, rest) => Some (PStr str, rest)
            | None => None
            end
          else if bool_decide (c = "t"%char) then keyword "true" (PBool true) (c :: s')
          else if bool_decide (c = "f"%char) then keyword "false" (PBool false) (c :: s')
          else if bool_decide (c = "n"%char) then keyword "null" PNone (c :: s')
          else number (c :: s')
      end
  end
with json_members (fuel : nat) (s : pystr) (acc : gmap pystr pyval) : option (pyval * pystr) :=
  match fuel with
  | O => None
  | S fuel' =>
      match skip_ws s with
      | c :: s1 =>
          if (code c =? 34) then
            match string_body s1 [] with
            | Some (key, s2) =>
                match skip_ws s2 with
                | ":"%char :: s3 =>
                    match json_value fuel' s3 with
                    | Some (v, s4) =>
                        match skip_ws s4 with
                        | ","%char :: s5 => json_members fuel' s5 (<[key := v]> acc)
                        | "}"%char :: rest => Some (PDict (<[key := v]> acc), rest)
                        | _ => None
                        end
                    | None => None
                    end
                | _ => None
                end
            | None => None
            end
          else None
      | [] => None
      end
  end
with json_elements (fuel : nat) (s : pystr) (acc : list pyval) : option (pyval * pystr) :=
  match fuel with
  | O => None
  | S fuel' =>
      match json_value fuel' s with
      | Some (v, s1) =>
          match skip_ws s1 with
          | ","%char :: s2 => json_elements fuel' s2 (acc ++ [v])
          | "]"%char :: rest => Some (PList (acc ++ [v]), rest)
          | _ => None
          end
      | None => None
      end
  end.

Definition json_decode (s : pystr) : option pyval :=
  match json_value (2 * length s + 2) s with
  | Some (v, rest) => match skip_ws rest with [] => Some v | _ => None end
  | None => None
  end.

(** A provider that answers the n-th invocation with the n-th entry of a
    script, and with empty content once the script is used up. *)
Definition scripted (script : list (result response)) (n : nat) (_ : list message)
  : result response :=
  default (Ok (RMessage (PStr []))) (script !! n).

Definition class_name (e : exn) : pystr :=
  match e with
  | ProviderError _ text => text
  | StopException => lit "StopException"
  | AttributeError _ attribute => lit "object has no attribute " ++ attribute
  | ValueError _ => lit "invalid literal for int()"
  | TypeError _ => lit "int() argument must be a string or a number"
  | OverflowError => lit "cannot convert float infinity to integer"
  | GraphRecursionError => lit "Recursion limit reached"
  end.

Definition scripted_runtime (key : bool) (script : list (result response)) : runtime :=
  {| has_key := key;
     llm_reply := scripted script;
     json_loads := json_decode;
     format_other := fun _ => lit "<object>";
     exn_str := class_name |}.

(** A reply of the provider with the text [s] as its content. *)
Definition says (s : pystr) : result response := Ok (RMessage (PStr s)).

(** The JSON text of a grade, as the grader's prompt asks for it; [score]
    is the text of the number. *)
Definition json_grade (score feedback : pystr) : pystr :=
  lit "{" ++ dq ++ lit "score" ++ dq ++ lit ": " ++ score ++ lit ", "
  ++ dq ++ lit "feedback" ++ dq ++ lit ": " ++ dq ++ feedback ++ dq ++ lit "}".



(** A heap with a list of two postings, the second one without fields. *)
Definition python_posting : gmap pystr pyval :=
  <[lit "title" := PStr (lit "Python Dev")]>
    (<[lit "description" := PStr (lit "Python, Django; SQL & AWS")]> ∅).

Definition two_postings : heap :=
  <[1%positive := OList [2%positive; 3%positive]]>
    (<[2%positive := ODict python_posting]> (<[3%positive := ODict ∅]> ∅)).

(** ** Notions of the specification *)

(** The length of the longest prefix of [s] made of characters of [p]. *)
Fixpoint span_len (p : ascii -> bool) (s : pystr) : nat :=
  match s with
  | c :: s' => if p c then S (span_len p s') else 0
  | [] => 0
  end.

(** A token as the specification describes it: a contiguous run of
    characters of [[a-z0-9]] in [text], at least two long, with no such
    character right before it or right behind it. *)
Definition word_run (text t : pystr) : Prop :=
  exists pre post,
    text = pre ++ t ++ post /\
    2 <= length t /\
    Forall (fun c => is_word_char c = true) t /\
    (forall p c, pre = p ++ [c] -> is_word_char c = false) /\
    (forall c q, post = c :: q -> is_word_char c = false).

(** ** The runs of the graph, round by round

    A round is one execution of the drafter followed by one of the grader.
    [round st w res] holds when the round that starts in state [st] and
    world [w] ends with [res]: an exception of one of the two nodes, or the
    state behind the grader. *)
Section Rounds.
Variable R : runtime.
Variable status_container : bool.

Inductive round (st : ResumeState) (w : world) : result ResumeState * world -> Prop :=
| round_drafter_raises e w1 :
    exec_node R status_container Drafter st w = (Raise e, w1) ->
    round st w (Raise e, w1)
| round_grader_raises u1 w1 e w2 :
    exec_node R status_container Drafter st w = (Ok u1, w1) ->
    exec_node R status_container Grader (apply_update u1 st) w1 = (Raise e, w2) ->
    round st w (Raise e, w2)
| round_graded u1 w1 u2 w2 :
    exec_node R status_container Drafter st w = (Ok u1, w1) ->
    exec_node R status_container Grader (apply_update u1 st) w1 = (Ok u2, w2) ->
    round st w (Ok (apply_update u2 (apply_update u1 st)), w2).

(** [run n st w res]: the graph, entered at the drafter in state [st] and
    world [w], ends with [res] in the course of its [n]-th round. *)
Inductive run : nat -> ResumeState -> world -> result ResumeState * world -> Prop :=
| run_raises st w e w' :
    round st w (Raise e, w') -> run 1 st w (Raise e, w')
| run_ends st w st' w' :
    round st w (Ok st', w') -> router st' = ToEnd -> run 1 st w (Ok st', w')
| run_goes_on n st w st' w' res :
    round st w (Ok st', w') -> router st' = ToDrafter -> run n st' w' res ->
    run (S n) st w res.
End Rounds.

(** Where an exception of a node comes from: [st.stop()] behind a missing
    key, the provider, or the node's own code, whose exceptions are all
    instances of [Exception]. *)
Definition raised_by_node (R : runtime) (e : exn) : Prop :=
  (has_key R = false /\ e = StopException) \/
  (exists n msgs, llm_reply R n msgs = Raise e) \/
  is_Exception e = true.

(** ** Notions used by the further properties *)

(** A text that neither starts nor ends with a character of [str.isspace]. *)
Definition trimmed (s : pystr) : Prop :=
  (forall c r, s = c :: r -> is_space c = false) /\
  (forall r c, s = r ++ [c] -> is_space c = false).

(** ** llm_engine.py: Deep Analysis and chat *)

Definition CHAT_HISTORY_LIMIT : nat := 3.

(** The dict [analyze_fit_deep] returns: the values of its keys [score] and
    [analysis]. *)
Record analysis := { analysis_score : Z; analysis_text : pystr }.

Definition COULD_NOT_ANALYZE : pystr := lit "Could not analyze".

Definition no_analysis : analysis :=
  {| analysis_score := 0; analysis_text := COULD_NOT_ANALYZE |}.

(** The JSON text of an analysis; [score] is the text of the number. *)
Definition json_analysis (score text : pystr) : pystr :=
  lit "{" ++ dq ++ lit "score" ++ dq ++ lit ": " ++ score ++ lit ", "
  ++ dq ++ lit "analysis" ++ dq ++ lit ": " ++ dq ++ text ++ dq ++ lit "}".

Definition CHAT_UNAVAILABLE : pystr :=
  lit "Chat unavailable. Add GEMINI_API_KEY to secrets.toml.".

(** [l[-CHAT_HISTORY_LIMIT:]]: the last entries of the list, all of them when
    there are no more than the limit. *)
Definition recent_of {A} (l : list A) : list A := drop (length l - CHAT_HISTORY_LIMIT) l.

Section Assistant.

Variable R : runtime.

(** [str(v)] *)
Definition py_str (v : pyval) : pystr := py_format (format_other R) v.

(** The message [analyze_fit_deep] builds for the provider. *)
Definition analysis_messages (resume job_desc : option pystr) : list message :=
  let resume_short := _slice resume 4000 in
  let job_short := _slice job_desc 4000 in
  let prompt :=
    lit "Analyze the fit between the resume and the job. Identify gaps. "
    ++ lit "Output JSON ONLY: { 'score': <0-100 integer>, 'analysis': '<concise text explanation>' }."
    ++ nl ++ nl ++ lit "Resume:" ++ nl ++ resume_short
    ++ nl ++ nl ++ lit "Job:" ++ nl ++ job_short
  in
  [(RoleHuman, prompt)].

(** The part of [analyze_fit_deep] behind [_get_content]: the analysis of
    the text [raw]. *)
Definition analysis_of (raw : pystr) : result analysis :=
  match raw with
  | [] => Ok no_analysis
  | _ =>
      let parsed := _extract_json (json_loads R) raw in
      if truthy parsed then
        match py_get parsed (lit "score") (PInt 0) with
        | Raise e => Raise e
        | Ok sc =>
            match py_int sc with
            | Raise e => Raise e
            | Ok score =>
                match py_get parsed (lit "analysis") (PStr COULD_NOT_ANALYZE) with
                | Raise e => Raise e
                | Ok a => Ok {| analysis_score := score; analysis_text := py_str a |}
                end
            end
        end
      else Ok no_analysis
  end.

(** [analyze_fit_deep]: the prompt is built in front of the [try]. *)
Definition analyze_fit_deep (resume job_desc : option pystr) : M analysis :=
  let messages := analysis_messages resume job_desc in
  try_except
    (run! _get_llm R in
     let! msg := llm_invoke R messages in
     let! raw := lift (_get_content msg (format_other R)) in
     lift (analysis_of raw))
    (fun _ => ret no_analysis).

(** The lines [chat_with_context] adds to its prompt for the entries of
    the history; an entry that is no dict has no [get]. *)
Fixpoint history_lines (recent : list pyval) (prompt : pystr) : result pystr :=
  match recent with
  | [] => Ok prompt
  | m :: rest =>
      match py_get m (lit "role") (PStr (lit "User")) with
      | Raise e => Raise e
      | Ok role =>
          match py_get m (lit "content") (PStr []) with
          | Raise e => Raise e
          | Ok content =>
              history_lines rest (prompt ++ nl ++ py_str role ++ lit ": " ++ py_str content)
          end
      end
  end.

Definition chat_prompt (resume job : option pystr) (user_msg : pystr)
    (history : option (list pyval)) : result pystr :=
  let resume_short := _slice resume 1500 in
  let job_short := _slice job 1500 in
  let recent := recent_of (default [] history) in
  let prompt :=
    lit "Context:" ++ nl ++ lit "Resume: " ++ resume_short ++ nl
    ++ lit "Job: " ++ job_short ++ nl ++ nl ++ lit "History:" in
  match history_lines recent prompt with
  | Raise e => Raise e
  | Ok prompt => Ok (prompt ++ nl ++ nl ++ lit "User: " ++ user_msg)
  end.

(** [chat_with_context] *)
Definition chat_with_context (resume job : option pystr) (user_msg : pystr)
    (history : option (list pyval)) : M pystr :=
  let! prompt := lift (chat_prompt resume job user_msg history) in
  run! _get_llm R in
  let! msg := llm_invoke R [(RoleHuman, prompt)] in
  let! raw := lift (_get_content msg (format_other R)) in
  ret (str_or raw CHAT_UNAVAILABLE).

End Assistant.

(** *** The streaming chat

    The messages of [chat_stream] carry the content of a history entry as it
    is, whatever value it is.  The provider's stream is the chunks it
    delivers and, where it fails on the way, the exception behind them.
    What the generator gives to the one who iterates over it is the parts it
    yields and the exception that ends it, if one does. *)

Inductive chat_role := ChatSystem | ChatHuman | ChatAI.
Definition chat_message : Type := chat_role * pyval.

Record streamed := { parts : list pystr; ending : option exn }.

(** [role == "user"] *)
Definition is_user (role : pyval) : bool :=
  match role with
  | PStr s => bool_decide (s = lit "user")
  | _ => false
  end.

Section ChatStream.

Variable R : runtime.
Variable llm_stream : list chat_message -> list response * option exn.

Fixpoint history_messages (recent : list pyval) : result (list chat_message) :=
  match recent with
  | [] => Ok []
  | m :: rest =>
      match py_get m (lit "role") (PStr (lit "user")) with
      | Raise e => Raise e
      | Ok role =>
          match py_get m (lit "content") (PStr []) with
          | Raise e => Raise e
          | Ok content =>
              match history_messages rest with
              | Raise e => Raise e
              | Ok later =>
                  Ok ((if is_user role then ChatHuman else ChatAI, content) :: later)
              end
          end
      end
  end.

Definition chat_system_content (resume job_desc : option pystr) : pystr :=
  let resume_short := _slice (Some (default [] resume)) 1500 in
  let job_short := _slice (Some (default [] job_desc)) 1500 in
  let context :=
    lit "[Resume]" ++ nl ++ resume_short ++ nl ++ nl ++ lit "[Job]" ++ nl ++ job_short in
  lit "Answer clearly using natural spacing. Use paragraphs and line breaks where appropriate. "
  ++ lit "Context: " ++ context.

Definition chat_messages (resume job_desc : option pystr) (question : pystr)
    (history : option (list pyval)) : result (list chat_message) :=
  match history_messages (recent_of (default [] history)) with
  | Raise e => Raise e
  | Ok between =>
      Ok ((ChatSystem, PStr (chat_system_content resume job_desc))
          :: between ++ [(ChatHuman, PStr question)])
  end.

(** The loop over the chunks: a part that is not empty is yielded; an
    exception of [_get_content] ends the generator. *)
Fixpoint stream_parts (chunks : list response) (failure : option exn) : streamed :=
  match chunks with
  | [] => {| parts := []; ending := failure |}
  | chunk :: rest =>
      match _get_content chunk (format_other R) with
      | Raise e => {| parts := []; ending := Some e |}
      | Ok [] => stream_parts rest failure
      | Ok part =>
          let later := stream_parts rest failure in
          {| parts := part :: parts later; ending := ending later |}
      end
  end.

(** [chat_stream], iterated to its end. *)
Definition chat_stream (resume job_desc : option pystr) (question : pystr)
    (history : option (list pyval)) (w : world) : streamed * world :=
  match chat_messages resume job_desc question history with
  | Raise e => ({| parts := []; ending := Some e |}, w)
  | Ok messages =>
      match _get_llm R w with
      | (Raise e, w') => ({| parts := []; ending := Some e |}, w')
      | (Ok _, w') =>
          let '(chunks, failure) := llm_stream messages in
          (stream_parts chunks failure, w')
      end
  end.

End ChatStream.

(** * Theorems *)

(** * Theorems *)

(** ** The tokenizer *)

Section Span.
Variable p : ascii -> bool.

Lemma span_len_le s : span_len p s <= length s.
Proof. induction s as [|c s IH]; simpl; [lia|]. destruct (p c); simpl; lia. Qed.

Lemma span_take_all s : Forall (fun c => p c = true) (take (span_len p s) s).
Proof.
  induction s as [|c s IH]; simpl; [constructor|].
  destruct (p c) eqn:E; simpl; [constructor; assumption | constructor].
Qed.

Lemma span_drop_head s c q : drop (span_len p s) s = c :: q -> p c = false.
Proof.
  induction s as [|x s IH]; simpl; [discriminate|].
  destruct (p x) eqn:E; simpl; [exact IH|].
  intros [= <- _]. exact E.
Qed.

Lemma span_len_app t post :
  Forall (fun c => p c = true) t ->
  (forall c q, post = c :: q -> p c = false) ->
  span_len p (t ++ post) = length t.
Proof.
  intros Ht Hpost. induction Ht as [|c t Hc _ IH]; simpl.
  - destruct post as [|c q]; [reflexivity|]. simpl. now rewrite (Hpost c q eq_refl).
  - rewrite Hc, IH. reflexivity.
Qed.

Lemma span_len_stop pre x rest :
  p x = false -> span_len p (pre ++ x :: rest) <= length pre.
Proof.
  intros Hx. induction pre as [|c pre IH]; simpl.
  - rewrite Hx. lia.
  - destruct (p c); lia.
Qed.

(** Behind a greedy star nothing of the class is left when the rest of
    the pattern accepts whatever it is given. *)
Lemma star_greedy_all (g : option pystr) s :
  star_greedy p (fun s' => Some (s', g)) s = Some (drop (span_len p s) s, g).
Proof.
  induction s as [|c s IH]; simpl; [reflexivity|].
  destruct (p c); simpl; [|reflexivity]. rewrite IH. reflexivity.
Qed.

Lemma eat_two s :
  eat 2 p s = if 2 <=? span_len p s then Some (drop 2 s) else None.
Proof.
  destruct s as [|a [|b s]]; simpl; try reflexivity.
  - destruct (p a); reflexivity.
  - destruct (p a); [|reflexivity]. destruct (p b); reflexivity.
Qed.

Lemma span_len_drop n s : n <= span_len p s -> span_len p (drop n s) = span_len p s - n.
Proof.
  revert s. induction n as [|n IH]; intros s Hn; simpl.
  - rewrite drop_0. lia.
  - destruct s as [|c s]; simpl in *; [lia|].
    destruct (p c); [|lia]. rewrite IH by lia. lia.
Qed.
End Span.

Lemma match_word s :
  match_here word_pattern s [] None =
  if 2 <=? span_len is_word_char s
  then Some (drop (span_len is_word_char s) s, None) else None.
Proof.
  unfold word_pattern. cbn [match_here]. rewrite eat_two.
  destruct (2 <=? span_len is_word_char s) eqn:E; [|reflexivity].
  apply Nat.leb_le in E.
  rewrite (star_greedy_all is_word_char None).
  rewrite span_len_drop by exact E. rewrite drop_drop.
  replace (2 + (span_len is_word_char s - 2)) with (span_len is_word_char s) by lia.
  reflexivity.
Qed.

Lemma findall_skip pat pre rest :
  findall_from pat (pre ++ rest) (length pre) = findall_from pat rest 0.
Proof.
  induction pre as [|c pre IH]; simpl; [|exact IH].
  destruct rest; reflexivity.
Qed.

(** The scan for words, one step at a time. *)
Lemma tokens_step c s :
  re_findall word_pattern (c :: s) =
  let n := span_len is_word_char (c :: s) in
  if 2 <=? n then take n (c :: s) :: re_findall word_pattern (drop n (c :: s))
  else re_findall word_pattern s.
Proof.
  unfold re_findall. cbn zeta.
  change (findall_from word_pattern (c :: s) 0) with
    (match match_here word_pattern (c :: s) [] None with
     | Some (rest, _) =>
         consumed (c :: s) rest
         :: findall_from word_pattern s (length (consumed (c :: s) rest) - 1)
     | None => findall_from word_pattern s 0
     end).
  rewrite match_word.
  destruct (2 <=? span_len is_word_char (c :: s)) eqn:E; [|reflexivity].
  apply Nat.leb_le in E.
  pose proof (span_len_le is_word_char (c :: s)) as Hle.
  set (n := span_len is_word_char (c :: s)) in *.
  unfold consumed. rewrite length_drop.
  replace (length (c :: s) - (length (c :: s) - n)) with n by lia.
  f_equal.
  rewrite length_take. replace (n `min` length (c :: s)) with n by lia.
  destruct n as [|n]; [lia|]. simpl. rewrite Nat.sub_0_r.
  simpl in Hle.
  assert (Hlen : length (take n s) = n) by (rewrite length_take; lia).
  transitivity (findall_from word_pattern (take n s ++ drop n s) (length (take n s))).
  { rewrite take_drop, Hlen. reflexivity. }
  apply findall_skip.
Qed.

Lemma tokens_nil : re_findall word_pattern [] = [].
Proof. reflexivity. Qed.

Lemma last_snoc_inv {A} (l1 l2 : list A) (a b : A) :
  l1 ++ [a] = l2 ++ [b] -> a = b.
Proof. intros H. apply app_inj_tail in H. tauto. Qed.

Lemma nonempty_snoc {A} (l : list A) : l <> [] -> exists l' x, l = l' ++ [x].
Proof.
  intros H. destruct (exists_last H) as (l' & x & ->). eauto.
Qed.

(** Every match of the scan is a token of the specification. *)
Lemma tokens_sound n : forall s t,
  length s <= n -> In t (re_findall word_pattern s) -> word_run s t.
Proof.
  induction n as [|n IH]; intros s t Hlen Hin.
  - destruct s; [|simpl in Hlen; lia]. rewrite tokens_nil in Hin. destruct Hin.
  - destruct s as [|c s]; [rewrite tokens_nil in Hin; destruct Hin|].
    rewrite tokens_step in Hin. cbn zeta in Hin.
    pose proof (span_len_le is_word_char (c :: s)) as Hle.
    set (k := span_len is_word_char (c :: s)) in *.
    destruct (2 <=? k) eqn:E.
    + apply Nat.leb_le in E. destruct Hin as [<- | Hin].
      * exists [], (drop k (c :: s)). repeat split.
        -- simpl. now rewrite take_drop.
        -- rewrite length_take. lia.
        -- apply span_take_all.
        -- intros p x Hp. destruct p; discriminate.
        -- intros x q Hq. eapply span_drop_head. exact Hq.
      * apply IH in Hin; [|rewrite length_drop; simpl in *; lia].
        destruct Hin as (pre & post & Heq & H2 & Hall & Hpre & Hpost).
        exists (take k (c :: s) ++ pre), post. repeat split; try assumption.
        -- rewrite <- app_assoc, <- Heq. now rewrite take_drop.
        -- intros p x Hp. destruct pre as [|y pre].
           ++ simpl in Heq. destruct t as [|z t]; [simpl in H2; lia|].
              apply Forall_cons in Hall. destruct Hall as [Hz _].
              rewrite (span_drop_head is_word_char (c :: s) z (t ++ post) Heq) in Hz.
              discriminate.
           ++ destruct (nonempty_snoc (y :: pre)) as (l' & x' & Hl); [discriminate|].
              rewrite Hl, app_assoc in Hp. apply last_snoc_inv in Hp. subst x'.
              eapply Hpre. exact Hl.
    + apply Nat.leb_gt in E.
      apply IH in Hin; [|simpl in Hlen; lia].
      destruct Hin as (pre & post & Heq & H2 & Hall & Hpre & Hpost).
      exists (c :: pre), post. repeat split; try assumption.
      * simpl. now rewrite Heq.
      * intros p x Hp. destruct pre as [|y pre].
        -- destruct p as [|? [|? ?]]; try discriminate. injection Hp as Hcx. subst x.
           destruct (is_word_char c) eqn:Hc; [|reflexivity].
           destruct t as [|z t]; [simpl in H2; lia|].
           apply Forall_cons in Hall. destruct Hall as [Hz _].
           subst k. simpl in E. rewrite Hc in E. subst s. simpl in E. rewrite Hz in E. lia.
        -- destruct (nonempty_snoc (y :: pre)) as (l' & x' & Hl); [discriminate|].
           rewrite Hl in Hp. change (c :: l' ++ [x']) with ((c :: l') ++ [x']) in Hp.
           apply last_snoc_inv in Hp. subst x'. eapply Hpre. exact Hl.
Qed.

(** Every token of the specification is a match of the scan. *)
Lemma tokens_complete n : forall s t,
  length s <= n -> word_run s t -> In t (re_findall word_pattern s).
Proof.
  induction n as [|n IH]; intros s t Hlen (pre & post & Heq & H2 & Hall & Hpre & Hpost).
  - destruct s; [|simpl in Hlen; lia].
    destruct pre; [|discriminate]. destruct t; [simpl in H2; lia | discriminate].
  - destruct s as [|c s].
    { destruct pre; [|discriminate]. destruct t; [simpl in H2; lia | discriminate]. }
    rewrite tokens_step. cbn zeta.
    destruct pre as [|x pre].
    + simpl in Heq. rewrite Heq.
      rewrite (span_len_app is_word_char t post Hall Hpost).
      replace (2 <=? length t) with true by (symmetry; apply Nat.leb_le; lia).
      left. rewrite take_app_length. reflexivity.
    + destruct (nonempty_snoc (x :: pre)) as (p0 & y & Hp0); [discriminate|].
      pose proof (Hpre p0 y Hp0) as Hy.
      assert (Hs : c :: s = p0 ++ y :: t ++ post).
      { rewrite Heq, Hp0, <- app_assoc. reflexivity. }
      pose proof (span_len_stop is_word_char p0 y (t ++ post) Hy) as Hstop.
      rewrite <- Hs in Hstop.
      set (k := span_len is_word_char (c :: s)) in *.
      destruct (2 <=? k) eqn:E.
      * right. apply IH.
        { rewrite length_drop. apply Nat.leb_le in E. simpl in *. lia. }
        exists (drop k p0 ++ [y]), post. repeat split; try assumption.
        -- rewrite Hs. rewrite drop_app_le by exact Hstop.
           rewrite <- app_assoc. reflexivity.
        -- intros p z Hp. apply last_snoc_inv in Hp. now subst z.
      * apply IH; [simpl in Hlen; lia|].
        injection Heq as -> Hs'.
        exists pre, post. repeat split; try assumption.
        intros p z Hp. apply (Hpre (x :: p) z). now rewrite Hp.
Qed.

Lemma tokens_spec s t : In t (re_findall word_pattern s) <-> word_run s t.
Proof.
  split; [apply (tokens_sound (length s)) | apply (tokens_complete (length s))]; lia.
Qed.

(** C8.  [_tokenize] gives the empty set for every value that is not a
    string and for the empty string; for a string it gives exactly the set
    of the maximal runs of [[a-z0-9]] of length at least two of the
    lower-cased text (a set: a word that occurs twice is one element); and
    equal inputs give equal sets. *)
Theorem tokenize_spec :
  (forall v, (forall s, v <> PStr s) -> _tokenize v = ∅) /\
  _tokenize (PStr []) = ∅ /\
  (forall s t, t ∈ _tokenize (PStr s) <-> word_run (lower s) t) /\
  _tokenize (PStr (lit "Go: GO, go! R2-D2 a b")) = {[ lit "go"; lit "r2"; lit "d2" ]} /\
  (forall v1 v2, v1 = v2 -> _tokenize v1 = _tokenize v2).
Proof.
  split; [|split; [|split; [|split]]].
  - intros v Hv. destruct v; try reflexivity. exfalso. eapply Hv. reflexivity.
  - reflexivity.
  - intros s t. rewrite <- tokens_spec. destruct s as [|c s].
    + change (lower []) with (@nil ascii). rewrite tokens_nil.
      change (_tokenize (PStr [])) with (∅ : gset pystr).
      split; [set_solver | intros []].
    + unfold _tokenize. rewrite elem_of_list_to_set, list_elem_of_In. reflexivity.
  - refine (bool_decide_unpack _ _). vm_compute. exact I.
  - intros v1 v2 ->. reflexivity.
Qed.

(** ** The overlap ratio and the fit label *)

Lemma float_of_len_pos n : 0 < n -> (0 < float_of_len n)%Q.
Proof.
  intros H. unfold float_of_len. change 0%Q with (inject_Z 0).
  rewrite <- Zlt_Qlt. lia.
Qed.

Lemma ratio_bounds (a b : nat) :
  a <= b -> 0 < b ->
  (0 <= float_of_len a / float_of_len b)%Q /\ (float_of_len a / float_of_len b <= 1)%Q.
Proof.
  intros Hab Hb. pose proof (float_of_len_pos b Hb) as Hpos. split.
  - apply Qle_shift_div_l; [exact Hpos|]. rewrite Qmult_0_l.
    unfold float_of_len. change 0%Q with (inject_Z 0). rewrite <- Zle_Qle. lia.
  - apply Qle_shift_div_r; [exact Hpos|]. rewrite Qmult_1_l.
    unfold float_of_len. rewrite <- Zle_Qle. lia.
Qed.

Lemma size_pos_of_nonempty (j : gset pystr) : j <> ∅ -> 0 < size j.
Proof.
  intros Hj. destruct (size j) eqn:E; [|lia].
  apply size_empty_iff in E. exfalso. apply Hj. now apply leibniz_equiv.
Qed.

Lemma overlap_ratio_range r j : (0 <= _overlap_ratio r j)%Q /\ (_overlap_ratio r j <= 1)%Q.
Proof.
  unfold _overlap_ratio. case_bool_decide as Hj.
  - split; [apply Qle_refl | discriminate].
  - apply ratio_bounds.
    + apply subseteq_size, intersection_subseteq_r.
    + now apply size_pos_of_nonempty.
Qed.

(** C6.  [_overlap_ratio] is the quotient of the size of the intersection by
    the size of the job tokens, it lies between 0 and 1, and it is 0 for an
    empty set of job tokens; a posting whose title and description are
    empty therefore has ratio 0 (and score 0) whatever the resume holds. *)
Theorem overlap_ratio_spec :
  (forall r j, j <> ∅ ->
     (_overlap_ratio r j == Z.of_nat (size (r ∩ j)) # Pos.of_nat (size j))%Q) /\
  (forall r j, (0 <= _overlap_ratio r j)%Q /\ (_overlap_ratio r j <= 1)%Q) /\
  (forall r, _overlap_ratio r ∅ = 0%Q) /\
  (forall fmt resume d,
     field_text fmt d (lit "title") = [] ->
     field_text fmt d (lit "description") = [] ->
     posting_ratio fmt resume d = 0%Q /\
     py_round (posting_ratio fmt resume d * 100) = 0%Z).
Proof.
  split; [|split; [|split]].
  - intros r j Hj. unfold _overlap_ratio. case_bool_decide; [contradiction|].
    pose proof (size_pos_of_nonempty j Hj) as Hpos.
    unfold float_of_len, Qdiv, Qeq, Qmult, Qinv, inject_Z. simpl.
    destruct (size j) as [|n] eqn:E; [lia|].
    simpl. rewrite !Z.mul_1_r, Pos.mul_1_l, <- Pos.of_nat_succ. reflexivity.
  - apply overlap_ratio_range.
  - intros r. reflexivity.
  - intros fmt resume d Ht Hd. unfold posting_ratio. rewrite Ht, Hd.
    assert (E : _tokenize (PStr ([] ++ lit " " ++ [])) = ∅)
      by (refine (bool_decide_unpack _ _); vm_compute; exact I).
    rewrite E. split; reflexivity.
Qed.

(** C6, at a posting without title whose description is the empty string. *)
Lemma overlap_ratio_spec_witness :
  posting_ratio (fun _ => lit "?") (PStr (lit "python sql"))
    (<[lit "description" := PStr []]> ∅) = 0%Q.
Proof.
  destruct overlap_ratio_spec as (_ & _ & _ & H).
  apply (H (fun _ => lit "?") (PStr (lit "python sql")) (<[lit "description" := PStr []]> ∅));
    vm_compute; reflexivity.
Defined.

(** C7.  [_fit_label] is defined on every ratio and steps up with it: Good
    Fit from 0.25 on, Stretch from 0.12 up to 0.25, Not Recommended below
    0.12; both thresholds belong to the upper label. *)
Theorem fit_label_spec :
  (forall r, (25 # 100 <= r)%Q -> _fit_label r = GoodFit) /\
  (forall r, (12 # 100 <= r)%Q -> (r < 25 # 100)%Q -> _fit_label r = Stretch) /\
  (forall r, (r < 12 # 100)%Q -> _fit_label r = NotRecommended) /\
  (forall r1 r2, (r1 <= r2)%Q ->
     label_rank (_fit_label r1) <= label_rank (_fit_label r2)) /\
  _fit_label (25 # 100) = GoodFit /\
  _fit_label (12 # 100) = Stretch /\
  _fit_label (30 # 100) = GoodFit /\
  _fit_label (15 # 100) = Stretch /\
  _fit_label (5 # 100) = NotRecommended.
Proof.
  assert (Hgood : forall r, (25 # 100 <= r)%Q -> _fit_label r = GoodFit).
  { intros r H. unfold _fit_label, OVERLAP_GOOD.
    apply Qle_bool_iff in H. now rewrite H. }
  assert (Hnot_good : forall r, (r < 25 # 100)%Q -> Qle_bool OVERLAP_GOOD r = false).
  { intros r H. destruct (Qle_bool OVERLAP_GOOD r) eqn:E; [|reflexivity].
    apply Qle_bool_iff in E. unfold OVERLAP_GOOD in E.
    exfalso. apply (Qlt_not_le _ _ H E). }
  assert (Hstretch : forall r, (12 # 100 <= r)%Q -> (r < 25 # 100)%Q -> _fit_label r = Stretch).
  { intros r H1 H2. unfold _fit_label. rewrite (Hnot_good r H2).
    unfold OVERLAP_STRETCH. apply Qle_bool_iff in H1. now rewrite H1. }
  assert (Hlow : forall r, (r < 12 # 100)%Q -> _fit_label r = NotRecommended).
  { intros r H. unfold _fit_label. rewrite Hnot_good.
    - destruct (Qle_bool OVERLAP_STRETCH r) eqn:E; [|reflexivity].
      apply Qle_bool_iff in E. unfold OVERLAP_STRETCH in E.
      exfalso. apply (Qlt_not_le _ _ H E).
    - eapply Qlt_trans; [exact H | reflexivity]. }
  repeat split; try assumption; try reflexivity.
  intros r1 r2 Hle.
  destruct (Qlt_le_dec r2 (12 # 100)) as [Hb | Hb].
  - rewrite (Hlow r2 Hb), (Hlow r1); [lia|]. eapply Qle_lt_trans; eassumption.
  - destruct (Qlt_le_dec r2 (25 # 100)) as [Hc | Hc].
    + rewrite (Hstretch r2 Hb Hc).
      destruct (Qlt_le_dec r1 (12 # 100)) as [Hd | Hd].
      * rewrite (Hlow r1 Hd). simpl. lia.
      * rewrite (Hstretch r1 Hd); [lia|]. eapply Qle_lt_trans; eassumption.
    + rewrite (Hgood r2 Hc). destruct (_fit_label r1); simpl; lia.
Qed.

(** ** [quick_score_jobs] on the heap *)

Lemma fresh_unused (h : heap) : h !! fresh (dom h) = None.
Proof. apply not_elem_of_dom, is_fresh. Qed.

Lemma heap_dict_Some h l d : heap_dict h l = Some d <-> h !! l = Some (ODict d).
Proof.
  unfold heap_dict. destruct (h !! l) as [[?|?]|]; split; intros H; congruence.
Qed.

Section QuickScoreProofs.
Variable fmt : pyval -> pystr.
Variable resume : pyval.

(** One turn of the loop: a new dict with the fields of the posting and
    the two derived fields, appended to [out]; nothing else changes. *)
Lemma score_one_spec h out j outs d :
  h !! out = Some (OList outs) ->
  heap_dict h j = Some d ->
  exists h',
    score_one fmt (_tokenize (or_empty resume)) out j h = Some h' /\
    h' !! out = Some (OList (outs ++ [fresh (dom h)])) /\
    h' !! fresh (dom h) = Some (ODict (scored fmt resume d)) /\
    (forall l, l <> out -> l <> fresh (dom h) -> h' !! l = h !! l).
Proof.
  intros Hout Hd.
  pose proof (fresh_unused h) as Hfresh.
  set (o := fresh (dom h)) in *.
  assert (Hne : out <> o) by (intros ->; congruence).
  unfold score_one. rewrite Hd. cbn [mbind option_bind].
  unfold alloc. fold o. cbv zeta.
  unfold dict_get, dict_setitem, list_append, heap_dict, heap_list.
  repeat (rewrite lookup_insert_eq; cbn [mbind option_bind fmap option_fmap option_map]).
  rewrite !lookup_insert_ne by congruence. rewrite Hout.
  cbn [mbind option_bind fmap option_fmap option_map].
  eexists. split; [reflexivity|]. split; [|split].
  - apply lookup_insert_eq.
  - rewrite lookup_insert_ne by congruence. rewrite lookup_insert_eq. reflexivity.
  - intros l H1 H2. rewrite !lookup_insert_ne by congruence. reflexivity.
Qed.

Lemma score_loop_spec js : forall h out outs,
  h !! out = Some (OList outs) ->
  Forall (fun j => is_Some (heap_dict h j)) js ->
  exists new h',
    score_loop fmt (_tokenize (or_empty resume)) out js h = Some h' /\
    h' !! out = Some (OList (outs ++ new)) /\
    length new = length js /\
    (forall l, is_Some (h !! l) -> l <> out -> h' !! l = h !! l) /\
    (forall i j, js !! i = Some j ->
       exists o d, new !! i = Some o /\ heap_dict h j = Some d /\
                   h !! o = None /\ h' !! o = Some (ODict (scored fmt resume d))).
Proof.
  induction js as [|j js IH]; intros h out outs Hout Hjs.
  - exists [], h. simpl. rewrite app_nil_r.
    repeat split; try assumption; try reflexivity. intros i j Hi. discriminate.
  - apply Forall_cons in Hjs. destruct Hjs as [[d Hd] Hjs].
    destruct (score_one_spec h out j outs d Hout Hd) as (h1 & Hrun & Hout1 & Ho1 & Hkeep1).
    pose proof (fresh_unused h) as Hfresh.
    set (o := fresh (dom h)) in *.
    assert (Hne : out <> o) by (intros ->; congruence).
    assert (Hold : forall l, is_Some (h !! l) -> l <> out -> h1 !! l = h !! l).
    { intros l [x Hx] Hl. apply Hkeep1; [exact Hl|]. intros ->. congruence. }
    assert (Hjs1 : Forall (fun j => is_Some (heap_dict h1 j)) js).
    { eapply Forall_impl; [exact Hjs|]. intros l [x Hx]. exists x.
      apply heap_dict_Some in Hx. apply heap_dict_Some.
      rewrite Hold; [exact Hx | eauto | intros ->; congruence]. }
    destruct (IH h1 out (outs ++ [o]) Hout1 Hjs1)
      as (new & h' & Hloop & Hout' & Hlen & Hkeep & Hnew).
    exists (o :: new), h'. split; [|split; [|split; [|split]]].
    + simpl. rewrite Hrun. exact Hloop.
    + rewrite Hout'. rewrite <- app_assoc. reflexivity.
    + simpl. now rewrite Hlen.
    + intros l Hl Hlo. rewrite Hkeep; [now apply Hold | | exact Hlo].
      rewrite Hold by assumption. exact Hl.
    + intros [|i] j' Hi; simpl in Hi.
      * injection Hi as <-. exists o, d. repeat split; try assumption.
        rewrite Hkeep; [exact Ho1 | rewrite Ho1; eauto | congruence].
      * destruct (Hnew i j' Hi) as (o' & d' & Hn & Hd' & Hfr & Hsc).
        assert (Hj' : is_Some (heap_dict h j')).
        { eapply Forall_lookup_1 in Hjs; [exact Hjs | exact Hi]. }
        destruct Hj' as [d0 Hd0].
        assert (Hj'1 : h1 !! j' = h !! j').
        { apply heap_dict_Some in Hd0. apply Hold; [eauto|]. intros ->. congruence. }
        exists o', d'. repeat split; try assumption.
        -- apply heap_dict_Some. rewrite <- Hj'1. now apply heap_dict_Some.
        -- destruct (h !! o') as [x|] eqn:Ex; [|reflexivity].
           destruct (decide (o' = out)) as [-> | Hoo]; [congruence|].
           rewrite Hold in Hfr; [congruence | eauto | exact Hoo].
Qed.
End QuickScoreProofs.

Lemma py_round_range (q : Q) :
  (0 <= q)%Q -> (q <= 1)%Q -> (0 <= py_round (q * 100) <= 100)%Z.
Proof.
  intros H0 H1.
  assert (Hx0 : (0 <= q * 100)%Q).
  { apply Qmult_le_0_compat; [exact H0 | discriminate]. }
  assert (Hx1 : (q * 100 <= 100)%Q).
  { apply Qle_trans with (y := (1 * 100)%Q).
    - apply Qmult_le_compat_r; [exact H1 | discriminate].
    - discriminate. }
  set (x := (q * 100)%Q) in *.
  assert (Hf0 : (0 <= Qfloor x)%Z).
  { change 0%Z with (Qfloor 0). now apply Qfloor_resp_le. }
  assert (Hf1 : (Qfloor x <= 100)%Z).
  { change 100%Z with (Qfloor 100). now apply Qfloor_resp_le. }
  unfold py_round. fold x.
  destruct (Z.eq_dec (Qfloor x) 100%Z) as [E | E].
  - assert (Hlt : (x - inject_Z (Qfloor x) < 1 # 2)%Q).
    { rewrite E. apply Qle_lt_trans with (y := 0%Q); [|reflexivity].
      apply (Qplus_le_l _ _ (inject_Z 100)). ring_simplify. exact Hx1. }
    assert (Hc : (x - inject_Z (Qfloor x) ?= 1 # 2)%Q = Lt) by (apply Qlt_alt; exact Hlt).
    rewrite Hc. lia.
  - destruct (x - inject_Z (Qfloor x) ?= 1 # 2)%Q; [destruct (Z.even (Qfloor x))| |]; lia.
Qed.




(** ** The nodes of the graph *)

Lemma node_runs_note n ev w :
  node_runs n (note ev w) = node_runs n w + (if is_run_of n ev then 1 else 0).
Proof.
  unfold node_runs, note. simpl. rewrite List.filter_app, length_app. simpl.
  destruct (is_run_of n ev); reflexivity.
Qed.

Lemma node_runs_asked n msgs w : node_runs n (asked msgs w) = node_runs n w.
Proof.
  unfold node_runs, asked. simpl. rewrite List.filter_app, length_app.
  destruct n; simpl; lia.
Qed.

Lemma node_runs_told n status text w : node_runs n (told status text w) = node_runs n w.
Proof.
  unfold told. destruct status; [|reflexivity].
  rewrite node_runs_note. destruct n; simpl; lia.
Qed.

Lemma calls_told status text w : calls (told status text w) = calls w.
Proof. unfold told. destruct status; reflexivity. Qed.

Lemma or_empty_strip_raises v e : str_strip (or_empty v) = Raise e -> is_Exception e = true.
Proof. unfold str_strip. destruct (or_empty v); intros H; inversion H; reflexivity. Qed.

Lemma get_content_raises resp fmt e :
  _get_content resp fmt = Raise e -> is_Exception e = true.
Proof.
  unfold _get_content. destruct resp as [|c|d|v]; try discriminate.
  - apply or_empty_strip_raises.
  - destruct (if truthy (default PNone (d !! lit "message"))
              then default PNone (d !! lit "message")
              else default PNone (d !! lit "content"));
      apply or_empty_strip_raises.
Qed.

Lemma py_int_raises v e : py_int v = Raise e -> is_Exception e = true.
Proof.
  unfold py_int. intros H. destruct v as [|b|z|[q|n|]|s|l|d]; try discriminate;
    try (inversion H; reflexivity).
  destruct (int_of_str s); inversion H; reflexivity.
Qed.

Lemma py_get_raises v k d e : py_get v k d = Raise e -> is_Exception e = true.
Proof. unfold py_get. intros H. destruct v; inversion H; reflexivity. Qed.

Section NodeProofs.
Variable R : runtime.
Variable status : bool.

Lemma grade_of_raises raw e : grade_of R raw = Raise e -> is_Exception e = true.
Proof.
  unfold grade_of. intros H. destruct raw as [|c raw]; [discriminate|].
  destruct (truthy (_extract_json (json_loads R) (c :: raw))); [|discriminate].
  destruct (py_get _ (lit "score") _) as [sc|e1] eqn:E1.
  - destruct (py_int sc) as [z|e2] eqn:E2.
    + destruct (py_get _ (lit "feedback") _) as [fb|e3] eqn:E3; [discriminate|].
      inversion H; subst. eapply py_get_raises; eassumption.
    + inversion H; subst. eapply py_int_raises; eassumption.
  - inversion H; subst. eapply py_get_raises; eassumption.
Qed.

(** The drafter, as a function of the reply it receives. *)
Lemma drafter_node_eq st w :
  drafter_node R status st w =
    if has_key R then
      (match llm_reply R (calls w) (drafter_messages R st) with
       | Raise e => Raise e
       | Ok resp =>
           match _get_content resp (format_other R) with
           | Raise e => Raise e
           | Ok content =>
               Ok {| set_current_draft :=
                       Some (str_or content
                               (str_or (current_draft st)
                                  (_slice (Some (original_resume st)) CONTEXT_LIMIT)));
                     set_revision_count := Some (revision_count st + 1)%Z;
                     set_score := None;
                     set_feedback := None |}
           end
       end, asked (drafter_messages R st) (told status DRAFTER_STATUS w))
    else (Raise StopException, note (EvStError MISSING_KEY) (told status DRAFTER_STATUS w)).
Proof.
  cbv beta iota zeta delta
    [drafter_node bind status_write _get_llm llm_invoke lift emit ret raise].
  destruct (has_key R); [|reflexivity].
  rewrite calls_told.
  destruct (llm_reply R (calls w) _) as [resp|e]; [|reflexivity].
  destruct (_get_content resp (format_other R)); reflexivity.
Qed.

(** The grader, as a function of the reply it receives. *)
Lemma grader_node_eq st w :
  grader_node R status st w =
    if has_key R then
      (match llm_reply R (calls w) (grader_messages st) with
       | Raise e => Raise e
       | Ok resp =>
           match _get_content resp (format_other R) with
           | Raise e => Raise e
           | Ok raw =>
               match grade_of R raw with
               | Raise e => Raise e
               | Ok grade =>
                   Ok {| set_current_draft := None;
                         set_revision_count := None;
                         set_score := Some (fst grade);
                         set_feedback := Some (snd grade) |}
               end
           end
       end, asked (grader_messages st) (told status GRADER_STATUS w))
    else (Raise StopException, note (EvStError MISSING_KEY) (told status GRADER_STATUS w)).
Proof.
  cbv beta iota zeta delta
    [grader_node bind status_write _get_llm llm_invoke lift emit ret raise].
  destruct (has_key R); [|reflexivity].
  rewrite calls_told.
  destruct (llm_reply R (calls w) _) as [resp|e]; [|reflexivity].
  destruct (_get_content resp (format_other R)); [|reflexivity].
  destruct (grade_of R _); reflexivity.
Qed.
End NodeProofs.

(** ** The graph *)


Section GraphProofs.
Variable R : runtime.
Variable status : bool.

Lemma exec_node_eq n st w :
  exec_node R status n st w = node_body R status n st (note (EvNode n) w).
Proof. reflexivity. Qed.

Lemma exec_drafter st w r w1 :
  exec_node R status Drafter st w = (r, w1) ->
  node_runs Drafter w1 = S (node_runs Drafter w) /\
  node_runs Grader w1 = node_runs Grader w /\
  match r with
  | Ok u =>
      set_revision_count u = Some (revision_count st + 1)%Z /\
      set_score u = None /\ set_feedback u = None /\
      exists content,
        set_current_draft u =
          Some (str_or content
                  (str_or (current_draft st)
                     (_slice (Some (original_resume st)) CONTEXT_LIMIT)))
  | Raise e => raised_by_node R e
  end.
Proof.
  rewrite exec_node_eq. cbn [node_body]. rewrite drafter_node_eq.
  destruct (has_key R) eqn:Hkey; intros H; injection H as <- <-.
  - rewrite !node_runs_asked, !node_runs_told, !node_runs_note. cbn [is_run_of].
    split; [lia|]. split; [lia|].
    destruct (llm_reply R _ _) as [resp|e] eqn:Hreply.
    + destruct (_get_content resp (format_other R)) as [content|e] eqn:Hc.
      * cbn. repeat split. exists content. reflexivity.
      * right. right. eapply get_content_raises. exact Hc.
    + right. left. eauto.
  - rewrite !node_runs_note, !node_runs_told, !node_runs_note. cbn [is_run_of].
    split; [lia|]. split; [lia|]. left. split; [exact Hkey|reflexivity].
Qed.

Lemma exec_grader st w r w1 :
  exec_node R status Grader st w = (r, w1) ->
  node_runs Grader w1 = S (node_runs Grader w) /\
  node_runs Drafter w1 = node_runs Drafter w /\
  match r with
  | Ok u =>
      set_revision_count u = None /\ set_current_draft u = None /\
      exists z fb, set_score u = Some z /\ set_feedback u = Some fb
  | Raise e => raised_by_node R e
  end.
Proof.
  rewrite exec_node_eq. cbn [node_body]. rewrite grader_node_eq.
  destruct (has_key R) eqn:Hkey; intros H; injection H as <- <-.
  - rewrite !node_runs_asked, !node_runs_told, !node_runs_note. cbn [is_run_of].
    split; [lia|]. split; [lia|].
    destruct (llm_reply R _ _) as [resp|e] eqn:Hreply.
    + destruct (_get_content resp (format_other R)) as [raw|e] eqn:Hc.
      * destruct (grade_of R raw) as [[z fb]|e] eqn:Hg.
        -- cbn. repeat split. exists z, fb. split; reflexivity.
        -- right. right. eapply grade_of_raises. exact Hg.
      * right. right. eapply get_content_raises. exact Hc.
    + right. left. eauto.
  - rewrite !node_runs_note, !node_runs_told, !node_runs_note. cbn [is_run_of].
    split; [lia|]. split; [lia|]. left. split; [exact Hkey|reflexivity].
Qed.

(** *** Rounds *)

Lemma round_total st w : exists res, round R status st w res.
Proof.
  destruct (exec_node R status Drafter st w) as [[u1|e] w1] eqn:H1.
  - destruct (exec_node R status Grader (apply_update u1 st) w1) as [[u2|e] w2] eqn:H2.
    + eexists. eapply round_graded; eassumption.
    + eexists. eapply round_grader_raises; eassumption.
  - eexists. eapply round_drafter_raises; eassumption.
Qed.

Lemma round_ok st w st' w' :
  round R status st w (Ok st', w') ->
  revision_count st' = (revision_count st + 1)%Z /\
  node_runs Drafter w' = S (node_runs Drafter w) /\
  node_runs Grader w' = S (node_runs Grader w).
Proof.
  intros H. inversion H as [| |u1 w1 u2 w2 H1 H2 Heq]; subst.
  apply exec_drafter in H1 as (Hd1 & Hg1 & Hrc & _).
  apply exec_grader in H2 as (Hg2 & Hd2 & Hrc2 & _).
  cbn [apply_update revision_count]. rewrite Hrc2, Hrc. cbn.
  split; [reflexivity|]. split; congruence.
Qed.

Lemma round_raise st w e w' :
  round R status st w (Raise e, w') ->
  node_runs Drafter w' = S (node_runs Drafter w) /\
  node_runs Grader w' <= S (node_runs Grader w) /\
  raised_by_node R e.
Proof.
  intros H. inversion H as [e1 w1 H1|u1 w1 e2 w2 H1 H2|]; subst.
  - apply exec_drafter in H1 as (Hd1 & Hg1 & Hr). repeat split; [lia|lia|exact Hr].
  - apply exec_drafter in H1 as (Hd1 & Hg1 & _).
    apply exec_grader in H2 as (Hg2 & Hd2 & Hr). repeat split; [lia|lia|exact Hr].
Qed.

(** *** Runs *)

(** A run goes through the rounds its counter allows for. *)
Lemma run_exists (k : nat) : forall st w,
  (2 - revision_count st <= Z.of_nat (S k))%Z ->
  exists n res, 1 <= n <= S k /\ run R status n st w res.
Proof.
  induction k as [|k IH]; intros st w Hrc.
  - destruct (round_total st w) as [[[st'|e] w'] Hr].
    + exists 1, (Ok st', w'). split; [lia|]. apply run_ends; [exact Hr|].
      apply round_ok in Hr as (Hrc' & _). unfold router.
      replace (MAX_REVISION_RETRIES <=? revision_count st')%Z with true.
      * rewrite orb_true_r. reflexivity.
      * symmetry. apply Z.leb_le. unfold MAX_REVISION_RETRIES. lia.
    + exists 1, (Raise e, w'). split; [lia|]. apply run_raises. exact Hr.
  - destruct (round_total st w) as [[[st'|e] w'] Hr].
    + destruct (router st') eqn:Hroute.
      * destruct (IH st' w') as (n & res & Hn & Hrun).
        { apply round_ok in Hr as (Hrc' & _). lia. }
        exists (S n), res. split; [lia|]. eapply run_goes_on; eassumption.
      * exists 1, (Ok st', w'). split; [lia|]. apply run_ends; assumption.
    + exists 1, (Raise e, w'). split; [lia|]. apply run_raises. exact Hr.
Qed.

(** The graph follows the rounds, whatever is left of the limit behind
    them. *)
Lemma run_adequate n st w res :
  run R status n st w res ->
  forall limit, 2 * n <= limit -> graph_invoke R status limit Drafter st w = res.
Proof.
  induction 1 as [st w e w' Hr|st w st' w' Hr Hroute|n st w st' w' res Hr Hroute Hrun IH];
    intros limit Hlimit.
  - destruct limit as [|[|limit]]; [lia|lia|].
    inversion Hr as [e1 w1 H1|u1 w1 e2 w2 H1 H2|]; subst.
    + cbn [graph_invoke]. unfold bind at 1. rewrite H1. reflexivity.
    + cbn [graph_invoke]. unfold bind at 1. rewrite H1. cbn [successor].
      unfold bind at 1. rewrite H2. reflexivity.
  - destruct limit as [|[|limit]]; [lia|lia|].
    inversion Hr as [| |u1 w1 u2 w2 H1 H2 Heq]; subst.
    cbn [graph_invoke]. unfold bind at 1. rewrite H1. cbn [successor].
    unfold bind at 1. rewrite H2. cbn [successor]. rewrite Hroute. reflexivity.
  - destruct limit as [|[|limit]]; [lia|lia|].
    inversion Hr as [| |u1 w1 u2 w2 H1 H2 Heq]; subst.
    cbn [graph_invoke]. unfold bind at 1. rewrite H1. cbn [successor].
    unfold bind at 1. rewrite H2. cbn [successor]. rewrite Hroute.
    apply IH. lia.
Qed.

(** What a run of [n] rounds leaves behind. *)
Lemma run_counts n st w res :
  run R status n st w res ->
  1 <= n /\
  node_runs Drafter (snd res) = node_runs Drafter w + n /\
  node_runs Grader (snd res) <= node_runs Grader w + n /\
  match fst res with
  | Ok st' =>
      revision_count st' = (revision_count st + Z.of_nat n)%Z /\
      node_runs Grader (snd res) = node_runs Grader w + n /\
      router st' = ToEnd
  | Raise e => raised_by_node R e
  end.
Proof.
  induction 1 as [st w e w' Hr|st w st' w' Hr Hroute|n st w st' w' res Hr Hroute Hrun IH].
  - apply round_raise in Hr as (Hd & Hg & He). cbn [fst snd].
    repeat split; [lia|lia|lia|exact He].
  - apply round_ok in Hr as (Hrc & Hd & Hg). cbn [fst snd].
    repeat split; [lia|lia|lia|lia|lia|exact Hroute].
  - apply round_ok in Hr as (Hrc & Hd & Hg).
    destruct IH as (Hn & IHd & IHg & IHr).
    repeat split; [lia|lia|lia|].
    destruct (fst res) as [st''|e]; [|exact IHr].
    destruct IHr as (IHrc & IHg' & IHroute). repeat split; [lia|lia|exact IHroute].
Qed.

(** The rounds of a run are determined. *)
Lemma round_functional st w res1 res2 :
  round R status st w res1 -> round R status st w res2 -> res1 = res2.
Proof.
  intros H1 H2. inversion H1; inversion H2; subst; congruence.
Qed.

(** The router sends a state back to the drafter only below both gates. *)
Lemma router_ToDrafter st :
  router st = ToDrafter <->
  (score st < SCORE_GOOD_ENOUGH)%Z /\ (revision_count st < MAX_REVISION_RETRIES)%Z.
Proof.
  unfold router.
  destruct (SCORE_GOOD_ENOUGH <=? score st)%Z eqn:Hs;
    destruct (MAX_REVISION_RETRIES <=? revision_count st)%Z eqn:Hc; cbn;
    try apply Z.leb_le in Hs; try apply Z.leb_gt in Hs;
    try apply Z.leb_le in Hc; try apply Z.leb_gt in Hc;
    split; try discriminate; try lia; try reflexivity.
Qed.

(** [optimize_resume_iterative], as a function of what the graph gives. *)
Lemma optimize_eq resume job w :
  optimize_resume_iterative R status resume job w =
  match graph_invoke R status RECURSION_LIMIT Drafter (initial_state resume job) w with
  | (Ok final_state, w') =>
      (Ok (str_or (current_draft final_state) (default [] resume)),
       told status (lit "✅ Done.") w')
  | (Raise e, w') =>
      if is_Exception e then
        (Ok (default [] resume ++ nl ++ nl ++ lit "[Error: " ++ exn_str R e ++ lit "]"),
         told status (lit "❌ Error: " ++ exn_str R e) w')
      else (Raise e, w')
  end.
Proof.
  unfold optimize_resume_iterative, try_except, bind, status_write, ret.
  destruct (graph_invoke R status RECURSION_LIMIT Drafter (initial_state resume job) w)
    as [[final_state|e] w'].
  - reflexivity.
  - destruct (is_Exception e); reflexivity.
Qed.

End GraphProofs.

(** ** The controller *)

Section ControllerProofs.
Variable R : runtime.
Variable status : bool.

(** The score of the state a run ends with is the one a grader gave. *)
Lemma round_score st w st' w' :
  round R status st w (Ok st', w') ->
  exists st1 v u v',
    grader_node R status st1 v = (Ok u, v') /\ set_score u = Some (score st').
Proof.
  intros H. inversion H as [| |u1 w1 u2 w2 H1 H2 Heq]; subst.
  pose proof H2 as H2'. apply exec_grader in H2' as (_ & _ & _ & _ & z & fb & Hz & _).
  rewrite exec_node_eq in H2. cbn [node_body] in H2.
  exists (apply_update u1 st), (note (EvNode Grader) w1), u2, w'.
  split; [exact H2|]. cbn [apply_update score]. rewrite Hz. reflexivity.
Qed.

Lemma run_score n st w res :
  run R status n st w res ->
  forall st', fst res = Ok st' ->
  exists st1 v u v',
    grader_node R status st1 v = (Ok u, v') /\ set_score u = Some (score st').
Proof.
  induction 1 as [st w e w' Hr|st w st' w' Hr Hroute|n st w st' w' res Hr Hroute Hrun IH];
    intros fin Hfin; cbn [fst] in Hfin.
  - discriminate.
  - injection Hfin as <-. eapply round_score. exact Hr.
  - apply IH. exact Hfin.
Qed.

(** A property of the state that every round keeps holds where the run
    ends. *)
Lemma run_invariant (P : ResumeState -> Prop) :
  (forall st w st' w', P st -> round R status st w (Ok st', w') -> P st') ->
  forall n st w res, run R status n st w res -> P st ->
  forall st', fst res = Ok st' -> P st'.
Proof.
  intros Hkeep n st w res Hrun.
  induction Hrun as [st w e w' Hr|st w st' w' Hr Hroute|n st w st' w' res Hr Hroute Hrun IH];
    intros HP fin Hfin; cbn [fst] in Hfin.
  - discriminate.
  - injection Hfin as <-. eapply Hkeep; eassumption.
  - apply IH; [eapply Hkeep; eassumption|exact Hfin].
Qed.

(** The run of the controller's graph: one or two rounds. *)
Lemma controller_run resume job w :
  exists n,
    1 <= n <= 2 /\
    run R status n (initial_state resume job) w
      (graph_invoke R status RECURSION_LIMIT Drafter (initial_state resume job) w) /\
    forall limit, 4 <= limit ->
      graph_invoke R status limit Drafter (initial_state resume job) w =
      graph_invoke R status RECURSION_LIMIT Drafter (initial_state resume job) w.
Proof.
  destruct (run_exists R status 1 (initial_state resume job) w) as (n & res & Hn & Hrun).
  { cbn. lia. }
  exists n. split; [exact Hn|].
  assert (Hout : graph_invoke R status RECURSION_LIMIT Drafter (initial_state resume job) w
                 = res).
  { eapply run_adequate; [exact Hrun|]. unfold RECURSION_LIMIT. lia. }
  rewrite Hout. split; [exact Hrun|].
  intros limit Hlimit. eapply run_adequate; [exact Hrun|]. lia.
Qed.

(** The controller leaves the node executions of its graph behind. *)
Lemma optimize_node_runs resume job w n :
  node_runs n (snd (optimize_resume_iterative R status resume job w)) =
  node_runs n
    (snd (graph_invoke R status RECURSION_LIMIT Drafter (initial_state resume job) w)).
Proof.
  rewrite optimize_eq.
  destruct (graph_invoke R status RECURSION_LIMIT Drafter (initial_state resume job) w)
    as [[final_state|e] w']; cbn [snd].
  - apply node_runs_told.
  - destruct (is_Exception e); cbn [snd]; [apply node_runs_told|reflexivity].
Qed.

End ControllerProofs.

Lemma slice_to_nil n : slice_to n [] = [].
Proof. destruct n; reflexivity. Qed.


Lemma str_or_nonempty (x y : pystr) : x <> [] \/ y <> [] -> str_or x y <> [].
Proof. destruct x as [|c x]; cbn; intros [H|H]; congruence. Qed.

Lemma str_or_self (x : pystr) : str_or x (_slice (Some x) CONTEXT_LIMIT) = x.
Proof. destruct x; [apply slice_to_nil|reflexivity]. Qed.

(** C1.  Every run of the controller executes the drafter once or twice and
    the grader at most twice, and it ends within four node executions: the
    recursion limit of the graph plays no part.  An execution of the drafter
    adds one to [revision_count] and one of the grader leaves it alone, so
    the state a run ends with counts the drafter's executions.  With a grader
    whose scores are all below 8 that count is 2; when the first grade is 8
    or more the drafter has run exactly once. *)
Theorem controller_bounds (R : runtime) (status : bool) (resume job : option pystr)
    (w : world) :
  let st0 := initial_state resume job in
  let out := graph_invoke R status RECURSION_LIMIT Drafter st0 w in
  let fin := optimize_resume_iterative R status resume job w in
  (forall limit, 4 <= limit -> graph_invoke R status limit Drafter st0 w = out) /\
  (node_runs Drafter w < node_runs Drafter (snd fin) <= node_runs Drafter w + 2) /\
  node_runs Grader (snd fin) <= node_runs Grader w + 2 /\
  (forall st v u v',
     exec_node R status Drafter st v = (Ok u, v') ->
     revision_count (apply_update u st) = (revision_count st + 1)%Z /\
     node_runs Drafter v' = S (node_runs Drafter v)) /\
  (forall st v u v',
     exec_node R status Grader st v = (Ok u, v') ->
     revision_count (apply_update u st) = revision_count st /\
     node_runs Drafter v' = node_runs Drafter v) /\
  (forall st', fst out = Ok st' ->
     revision_count st' = Z.of_nat (node_runs Drafter (snd fin) - node_runs Drafter w) /\
     node_runs Grader (snd fin) - node_runs Grader w =
       node_runs Drafter (snd fin) - node_runs Drafter w) /\
  ((forall st v u v',
      grader_node R status st v = (Ok u, v') ->
      exists z, set_score u = Some z /\ (z < SCORE_GOOD_ENOUGH)%Z) ->
   forall st', fst out = Ok st' ->
     revision_count st' = 2%Z /\
     node_runs Drafter (snd fin) = node_runs Drafter w + 2) /\
  (forall u1 w1 u2 w2,
     exec_node R status Drafter st0 w = (Ok u1, w1) ->
     exec_node R status Grader (apply_update u1 st0) w1 = (Ok u2, w2) ->
     (SCORE_GOOD_ENOUGH <= score (apply_update u2 (apply_update u1 st0)))%Z ->
     out = (Ok (apply_update u2 (apply_update u1 st0)), w2) /\
     node_runs Drafter (snd fin) = node_runs Drafter w + 1).
Proof.
  intros st0 out fin.
  destruct (controller_run R status resume job w) as (n & Hn & Hrun & Hlimit).
  fold st0 in Hrun, Hlimit. fold out in Hrun, Hlimit.
  pose proof (run_counts R status n st0 w out Hrun) as (_ & Hd & Hg & Hfin).
  assert (HfD : node_runs Drafter (snd fin) = node_runs Drafter (snd out))
    by apply optimize_node_runs.
  assert (HfG : node_runs Grader (snd fin) = node_runs Grader (snd out))
    by apply optimize_node_runs.
  split; [exact Hlimit|].
  split; [lia|].
  split; [lia|].
  split.
  { intros st v u v' H. apply exec_drafter in H as (Hv & _ & Hrc & _).
    cbn [apply_update revision_count]. rewrite Hrc. split; [reflexivity|exact Hv]. }
  split.
  { intros st v u v' H. apply exec_grader in H as (_ & Hv & Hrc & _).
    cbn [apply_update revision_count]. rewrite Hrc. split; [reflexivity|exact Hv]. }
  split.
  { intros st' Hout. rewrite Hout in Hfin. destruct Hfin as (Hrc & Hg' & _).
    cbn [st0 initial_state revision_count] in Hrc. split; lia. }
  split.
  { intros Hlow st' Hout.
    destruct (run_score R status n st0 w out Hrun st' Hout)
      as (st1 & v & u & v' & Hnode & Hscore).
    destruct (Hlow st1 v u v' Hnode) as (z & Hz & Hlt).
    rewrite Hscore in Hz. injection Hz as <-.
    rewrite Hout in Hfin. destruct Hfin as (Hrc & _ & Hend).
    cbn [st0 initial_state revision_count] in Hrc.
    assert (Hn2 : n = 2).
    { destruct (Nat.eq_dec n 2) as [|Hne]; [assumption|exfalso].
      assert (router st' = ToDrafter); [|congruence].
      apply router_ToDrafter. unfold MAX_REVISION_RETRIES. split; [exact Hlt|lia]. }
    subst n. split; lia. }
  intros u1 w1 u2 w2 H1 H2 Hscore.
  assert (Hround : round R status st0 w (Ok (apply_update u2 (apply_update u1 st0)), w2))
    by (eapply round_graded; eassumption).
  assert (Hend : router (apply_update u2 (apply_update u1 st0)) = ToEnd).
  { destruct (router (apply_update u2 (apply_update u1 st0))) eqn:Hr; [|reflexivity].
    apply router_ToDrafter in Hr. lia. }
  assert (Hrun1 : run R status 1 st0 w (Ok (apply_update u2 (apply_update u1 st0)), w2))
    by (apply run_ends; assumption).
  assert (Hout : out = (Ok (apply_update u2 (apply_update u1 st0)), w2)).
  { unfold out. eapply run_adequate; [exact Hrun1|]. unfold RECURSION_LIMIT. lia. }
  split; [exact Hout|].
  apply run_counts in Hrun1 as (_ & Hd1 & _). cbn [snd] in Hd1.
  rewrite HfD, Hout. cbn [snd]. exact Hd1.
Qed.

(** A provider whose every reply is empty is graded 0 twice: the run ends
    with [revision_count] 2.  One whose first grade is 9 is asked for one
    draft. *)
Lemma controller_bounds_witness :
  (exists st',
     fst (graph_invoke (scripted_runtime true []) false RECURSION_LIMIT Drafter
            (initial_state (Some (lit "cv")) (Some (lit "job"))) world0) = Ok st' /\
     revision_count st' = 2%Z) /\
  node_runs Drafter
    (snd (optimize_resume_iterative
            (scripted_runtime true [says (lit "draft"); says (json_grade (lit "9") (lit "good"))])
            false (Some (lit "cv")) (Some (lit "job")) world0)) = 1.
Proof.
  split.
  - destruct (controller_bounds (scripted_runtime true []) false
                (Some (lit "cv")) (Some (lit "job")) world0)
      as (_ & _ & _ & _ & _ & _ & Hlow & _).
    eexists. split; [vm_compute; reflexivity|].
    refine (proj1 (Hlow _ _ _)).
    + intros st v u v' H. rewrite grader_node_eq in H. cbn in H.
      injection H as <- _. exists 0%Z. split; [reflexivity|]. unfold SCORE_GOOD_ENOUGH. lia.
    + vm_compute. reflexivity.
  - destruct (controller_bounds
                (scripted_runtime true [says (lit "draft"); says (json_grade (lit "9") (lit "good"))])
                false (Some (lit "cv")) (Some (lit "job")) world0)
      as (_ & _ & _ & _ & _ & _ & _ & Hfirst).
    refine (proj2 (Hfirst _ _ _ _ _ _ _)).
    + vm_compute. reflexivity.
    + vm_compute. reflexivity.
    + vm_compute. discriminate.
Defined.

(** C2, as the specification has it, fails: with no [GEMINI_API_KEY] in the
    secrets, [_get_llm] stops the script with [st.stop()]; its
    [StopException] is no instance of [Exception], passes the handler of the
    controller and reaches the caller. *)
Lemma missing_key_propagates :
  fst (optimize_resume_iterative (scripted_runtime false []) true
         (Some (lit "cv")) (Some (lit "job")) world0) = Raise StopException.
Proof. vm_compute. reflexivity. Qed.

(** C2, amended.  An exception of the graph that is an instance of
    [Exception] is caught: the controller returns the resume followed by an
    empty line and the bracketed error.  Any other exception passes the
    handler by and reaches the caller, and that is the only way the
    controller raises: the exception is then the [StopException] of a
    missing key or one the provider raised.  With the key in place and a
    provider that raises instances of [Exception] only, the controller
    returns a string. *)
Theorem failure_is_annotated (R : runtime) (status : bool) (resume job : option pystr)
    (w : world) :
  let out := graph_invoke R status RECURSION_LIMIT Drafter (initial_state resume job) w in
  let fin := optimize_resume_iterative R status resume job w in
  (forall e w', out = (Raise e, w') -> is_Exception e = true ->
     fin = (Ok (default [] resume ++ nl ++ nl ++ lit "[Error: " ++ exn_str R e ++ lit "]"),
            told status (lit "❌ Error: " ++ exn_str R e) w')) /\
  (forall e w', out = (Raise e, w') -> is_Exception e = false -> fin = (Raise e, w')) /\
  (forall e w', fin = (Raise e, w') ->
     out = (Raise e, w') /\ is_Exception e = false /\
     ((has_key R = false /\ e = StopException) \/
      exists n msgs, llm_reply R n msgs = Raise e)) /\
  (has_key R = true ->
   (forall n msgs e, llm_reply R n msgs = Raise e -> is_Exception e = true) ->
   exists s w', fin = (Ok s, w')).
Proof.
  intros out fin.
  assert (Hfin : fin = match out with
                       | (Ok final_state, w') =>
                           (Ok (str_or (current_draft final_state) (default [] resume)),
                            told status (lit "✅ Done.") w')
                       | (Raise e, w') =>
                           if is_Exception e then
                             (Ok (default [] resume ++ nl ++ nl ++ lit "[Error: "
                                  ++ exn_str R e ++ lit "]"),
                              told status (lit "❌ Error: " ++ exn_str R e) w')
                           else (Raise e, w')
                       end) by apply optimize_eq.
  assert (Hraise : forall e w', out = (Raise e, w') -> raised_by_node R e).
  { intros e w' Hout.
    destruct (controller_run R status resume job w) as (n & _ & Hrun & _).
    apply run_counts in Hrun as (_ & _ & _ & Hr).
    fold out in Hr. rewrite Hout in Hr. exact Hr. }
  split; [|split; [|split]].
  - intros e w' Hout He. rewrite Hfin, Hout, He. reflexivity.
  - intros e w' Hout He. rewrite Hfin, Hout, He. reflexivity.
  - intros e w' Hf. rewrite Hfin in Hf.
    destruct out as [[final_state|e0] w0] eqn:Hout; [discriminate|].
    destruct (is_Exception e0) eqn:He0; [discriminate|].
    injection Hf as -> ->. split; [reflexivity|]. split; [exact He0|].
    destruct (Hraise e w' eq_refl) as [Hstop|[Hprov|Hexn]].
    + left. exact Hstop.
    + right. exact Hprov.
    + congruence.
  - intros Hkey Hprov. rewrite Hfin.
    destruct out as [[final_state|e] w0] eqn:Hout; [eauto|].
    assert (He : is_Exception e = true).
    { destruct (Hraise e w0 eq_refl) as [[Hno _]|[(n & msgs & Hr)|Hexn]].
      - congruence.
      - eapply Hprov. exact Hr.
      - exact Hexn. }
    rewrite He. eauto.
Qed.

(** A provider that fails with a time-out on its first call: the resume
    comes back with the error behind it. *)
Lemma failure_is_annotated_witness :
  fst (optimize_resume_iterative
         (scripted_runtime true [Raise (ProviderError true (lit "timed out"))]) false
         (Some (lit "cv")) (Some (lit "job")) world0)
  = Ok (lit "cv" ++ nl ++ nl ++ lit "[Error: timed out]").
Proof.
  destruct (failure_is_annotated
              (scripted_runtime true [Raise (ProviderError true (lit "timed out"))]) false
              (Some (lit "cv")) (Some (lit "job")) world0) as (Hcaught & _).
  rewrite (Hcaught (ProviderError true (lit "timed out")) _
             ltac:(vm_compute; reflexivity) eq_refl).
  reflexivity.
Defined.

(** C10.  Whatever the provider answers, a string the controller returns
    for a non-empty resume is not empty: behind the graph an empty
    [current_draft] is replaced by the resume, and the annotated resume of
    the error path is never empty.  Only an empty (or missing) resume gives an
    empty result.  When every reply of the provider has empty content the
    controller returns the resume itself. *)
Theorem result_nonempty (R : runtime) (status : bool) (resume job : option pystr)
    (w : world) :
  let out := graph_invoke R status RECURSION_LIMIT Drafter (initial_state resume job) w in
  let fin := optimize_resume_iterative R status resume job w in
  (forall s w', fin = (Ok s, w') -> default [] resume <> [] -> s <> []) /\
  (forall s w', fin = (Ok s, w') -> s = [] -> resume = None \/ resume = Some []) /\
  (forall st' w', out = (Ok st', w') ->
     fst fin = Ok (str_or (current_draft st') (default [] resume))) /\
  (has_key R = true ->
   (forall n msgs, exists resp,
      llm_reply R n msgs = Ok resp /\ _get_content resp (format_other R) = Ok []) ->
   fst fin = Ok (default [] resume)).
Proof.
  intros out fin.
  assert (Hfin : fin = match out with
                       | (Ok final_state, w') =>
                           (Ok (str_or (current_draft final_state) (default [] resume)),
                            told status (lit "✅ Done.") w')
                       | (Raise e, w') =>
                           if is_Exception e then
                             (Ok (default [] resume ++ nl ++ nl ++ lit "[Error: "
                                  ++ exn_str R e ++ lit "]"),
                              told status (lit "❌ Error: " ++ exn_str R e) w')
                           else (Raise e, w')
                       end) by apply optimize_eq.
  assert (Hne : forall s w', fin = (Ok s, w') -> default [] resume <> [] -> s <> []).
  { intros s w' Hf Hres. rewrite Hfin in Hf.
    destruct out as [[final_state|e] w0].
    - injection Hf as <- _. apply str_or_nonempty. right. exact Hres.
    - destruct (is_Exception e); [|discriminate]. injection Hf as <- _.
      destruct (default [] resume); discriminate. }
  split; [exact Hne|]. split; [|split].
  - intros s w' Hf Hs. destruct resume as [[|c r]|]; [right; reflexivity| |left; reflexivity].
    exfalso. apply (Hne s w' Hf); [discriminate|exact Hs].
  - intros st' w' Hout. rewrite Hfin, Hout. reflexivity.
  - intros Hkey Hempty.
    destruct (controller_run R status resume job w) as (n & _ & Hrun & _).
    fold out in Hrun.
    assert (Hok : forall nd st v, exists u v',
               exec_node R status nd st v = (Ok u, v') /\
               current_draft (apply_update u st) =
                 match nd with
                 | Drafter => str_or (current_draft st)
                                (_slice (Some (original_resume st)) CONTEXT_LIMIT)
                 | Grader => current_draft st
                 end /\
               original_resume (apply_update u st) = original_resume st).
    { intros nd st v. rewrite exec_node_eq. destruct nd; cbn [node_body].
      - rewrite drafter_node_eq, Hkey.
        destruct (Hempty (calls (note (EvNode Drafter) v)) (drafter_messages R st))
          as (resp & -> & ->).
        do 2 eexists. split; [reflexivity|]. split; reflexivity.
      - rewrite grader_node_eq, Hkey.
        destruct (Hempty (calls (note (EvNode Grader) v)) (grader_messages st))
          as (resp & -> & ->).
        do 2 eexists. split; [reflexivity|]. split; reflexivity. }
    assert (Hround : forall st v res, round R status st v res ->
               current_draft st = original_resume st ->
               exists st' v', res = (Ok st', v') /\
                 current_draft st' = original_resume st' /\
                 original_resume st' = original_resume st).
    { intros st v res Hr Hinv.
      destruct (Hok Drafter st v) as (u1 & v1 & H1 & Hd1 & Ho1).
      destruct (Hok Grader (apply_update u1 st) v1) as (u2 & v2 & H2 & Hd2 & Ho2).
      assert (Hg : round R status st v (Ok (apply_update u2 (apply_update u1 st)), v2))
        by (eapply round_graded; eassumption).
      rewrite (round_functional R status st v res _ Hr Hg).
      do 2 eexists. split; [reflexivity|].
      rewrite Hd2, Hd1, Ho2, Ho1, Hinv. split; [apply str_or_self|reflexivity]. }
    assert (Hrunok : forall n st v res, run R status n st v res ->
               current_draft st = original_resume st ->
               exists st' v', res = (Ok st', v') /\
                 current_draft st' = original_resume st).
    { clear Hrun. intros m st v res Hr.
      induction Hr as [st v e v' Hr|st v st' v' Hr Hroute|m st v st' v' res Hr Hroute Hrun IH];
        intros Hinv.
      - destruct (Hround st v _ Hr Hinv) as (st1 & v1 & Heq & _). discriminate.
      - destruct (Hround st v _ Hr Hinv) as (st1 & v1 & Heq & Hc & Ho).
        injection Heq as <- <-. do 2 eexists. split; [reflexivity|]. congruence.
      - destruct (Hround st v _ Hr Hinv) as (st1 & v1 & Heq & Hc & Ho).
        injection Heq as <- <-.
        destruct (IH Hc) as (st2 & v2 & -> & Hc2).
        do 2 eexists. split; [reflexivity|]. congruence. }
    destruct (Hrunok n _ w out Hrun eq_refl) as (st' & v' & Hout & Hc).
    rewrite Hfin, Hout. cbn [fst]. rewrite Hc. cbn [initial_state original_resume].
    destruct (default [] resume); reflexivity.
Qed.

(** A provider whose replies are all empty: the resume comes back. *)
Lemma result_nonempty_witness :
  fst (optimize_resume_iterative (scripted_runtime true []) false
         (Some (lit "cv")) (Some (lit "job")) world0) = Ok (lit "cv").
Proof.
  destruct (result_nonempty (scripted_runtime true []) false
              (Some (lit "cv")) (Some (lit "job")) world0) as (_ & _ & _ & Hempty).
  apply Hempty; [reflexivity|].
  intros n msgs. exists (RMessage (PStr [])). split; reflexivity.
Defined.

(** ** The grader's reading of a reply *)










(** ** The drafter's fallback *)





(** * Further properties of the code *)

(** ** The tokenizer *)

Lemma lower_char_idem (c : ascii) : lower_char (lower_char c) = lower_char c.
Proof. destruct c as [[] [] [] [] [] [] [] []]; reflexivity. Qed.

Lemma lower_idem (s : pystr) : lower (lower s) = lower s.
Proof.
  unfold lower. induction s as [|c s IH]; [reflexivity|].
  cbn [map]. rewrite lower_char_idem, IH. reflexivity.
Qed.

Lemma lower_app (a b : pystr) : lower (a ++ b) = lower a ++ lower b.
Proof. unfold lower. apply map_app. Qed.

Lemma elem_of_tokenize (s t : pystr) : t ∈ _tokenize (PStr s) <-> word_run (lower s) t.
Proof.
  rewrite <- tokens_spec. destruct s as [|c s].
  - change (lower []) with (@nil ascii). rewrite tokens_nil.
    change (_tokenize (PStr [])) with (∅ : gset pystr).
    split; [set_solver | intros []].
  - unfold _tokenize. rewrite elem_of_list_to_set, list_elem_of_In. reflexivity.
Qed.

(** X1.  [_tokenize] does not see the case of the letters: a text and its
    lower-cased form have the same tokens, and so have two texts that differ
    in case only. *)
Theorem tokenize_ignores_case :
  (forall s, _tokenize (PStr (lower s)) = _tokenize (PStr s)) /\
  (forall s1 s2, lower s1 = lower s2 -> _tokenize (PStr s1) = _tokenize (PStr s2)).
Proof.
  assert (H : forall s1 s2, lower s1 = lower s2 ->
                            _tokenize (PStr s1) = _tokenize (PStr s2)).
  { intros s1 s2 Hl. destruct s1 as [|c1 s1], s2 as [|c2 s2]; try discriminate.
    - reflexivity.
    - unfold _tokenize. rewrite Hl. reflexivity. }
  split; [|exact H].
  intros s. apply H. apply lower_idem.
Qed.

(** A resume in capitals has the tokens of the one in small letters. *)
Lemma tokenize_ignores_case_witness :
  _tokenize (PStr (lit "PYTHON, Sql")) = _tokenize (PStr (lit "python, sql")).
Proof.
  destruct tokenize_ignores_case as (_ & H). apply H. reflexivity.
Defined.

(** A word of one text that is joined to another by a character outside
    [[a-z0-9]] is a word of one of the two. *)
Lemma word_run_join (a b t : pystr) (sep : ascii) :
  is_word_char sep = false ->
  word_run (a ++ sep :: b) t <-> word_run a t \/ word_run b t.
Proof.
  intros Hsep. split.
  - intros (pre & post & Heq & H2 & Hall & Hpre & Hpost).
    assert (Hnot : ~ In sep t).
    { intros Hin. rewrite Forall_forall in Hall.
      apply list_elem_of_In in Hin. apply Hall in Hin. congruence. }
    apply app_eq_inv in Heq as [(k & Ha & Hk)|(k & Hp & Hk)].
    + apply app_eq_inv in Hk as [(k' & Ht & Hk')|(k' & Hk1 & Hk')].
      * destruct k' as [|x k'].
        -- left. rewrite app_nil_r in Ht. subst k.
           exists pre, []. rewrite app_nil_r. repeat split; try assumption.
           intros c q Hq. discriminate.
        -- exfalso. apply Hnot. cbn in Hk'. injection Hk' as <- _.
           rewrite Ht. apply in_or_app. right. left. reflexivity.
      * left. exists pre, k'. subst k. repeat split; try assumption.
        intros c q Hq. apply (Hpost c (q ++ sep :: b)). rewrite Hk', Hq. reflexivity.
    + destruct k as [|x k].
      * exfalso. apply Hnot. cbn in Hk. destruct t as [|y t]; [cbn in H2; lia|].
        injection Hk as <- _. left. reflexivity.
      * right. cbn in Hk. injection Hk as <- Hb. exists k, post. repeat split; try assumption.
        intros p c Hk. apply (Hpre (a ++ sep :: p) c).
        rewrite Hp, Hk, <- app_assoc. reflexivity.
  - intros [(pre & post & Heq & H2 & Hall & Hpre & Hpost)
           |(pre & post & Heq & H2 & Hall & Hpre & Hpost)].
    + exists pre, (post ++ sep :: b). repeat split; try assumption.
      * rewrite Heq, <- !app_assoc. reflexivity.
      * intros c q Hq. destruct post as [|y post].
        -- cbn in Hq. injection Hq as <- _. exact Hsep.
        -- cbn in Hq. injection Hq as <- _. eapply Hpost. reflexivity.
    + exists (a ++ sep :: pre), post. repeat split; try assumption.
      * rewrite Heq, <- app_assoc. reflexivity.
      * intros p c Hp. destruct pre as [|z pre].
        -- apply last_snoc_inv in Hp. subst c. exact Hsep.
        -- destruct (nonempty_snoc (z :: pre)) as (p' & y & Hy); [discriminate|].
           rewrite Hy in Hp.
           change (a ++ sep :: p' ++ [y]) with (a ++ (sep :: p') ++ [y]) in Hp.
           rewrite app_assoc in Hp. apply last_snoc_inv in Hp. subst y.
           eapply Hpre. exact Hy.
Qed.

Lemma tokenize_join_eq (a b : pystr) :
  _tokenize (PStr (a ++ lit " " ++ b)) = _tokenize (PStr a) ∪ _tokenize (PStr b).
Proof.
  apply set_eq. intros t. rewrite elem_of_union, !elem_of_tokenize.
  rewrite lower_app. change (lit " " ++ b) with (" "%char :: b).
  change (lower (" "%char :: b)) with (" "%char :: lower b).
  apply word_run_join. reflexivity.
Qed.

(** X2.  The tokens of two texts joined by a blank are the tokens of the one
    and the tokens of the other: no word reaches across the blank.  For a
    posting this makes the job tokens of [quick_score_jobs] the tokens of the
    title together with those of the description. *)
Theorem tokenize_join (fmt : pyval -> pystr) (resume : pyval) :
  (forall a b,
     _tokenize (PStr (a ++ lit " " ++ b)) = _tokenize (PStr a) ∪ _tokenize (PStr b)) /\
  (forall d,
     posting_ratio fmt resume d =
     _overlap_ratio (_tokenize (or_empty resume))
       (_tokenize (PStr (field_text fmt d (lit "title")))
        ∪ _tokenize (PStr (field_text fmt d (lit "description"))))).
Proof.
  split; [apply tokenize_join_eq|].
  intros d. unfold posting_ratio. rewrite tokenize_join_eq. reflexivity.
Qed.

(** ** The overlap ratio *)

Lemma float_of_len_le (a b : nat) : a <= b -> (float_of_len a <= float_of_len b)%Q.
Proof. intros H. unfold float_of_len. rewrite <- Zle_Qle. lia. Qed.

Lemma float_of_len_inj (a b : nat) : (float_of_len a == float_of_len b)%Q -> a = b.
Proof. unfold float_of_len. rewrite inject_Z_injective. lia. Qed.

Lemma float_of_len_nonzero (b : nat) : 0 < b -> ~ (float_of_len b == 0)%Q.
Proof.
  intros Hb H. apply (float_of_len_inj b 0) in H. lia.
Qed.

Lemma ratio_mono (a a' b : nat) :
  a <= a' -> 0 < b ->
  (float_of_len a / float_of_len b <= float_of_len a' / float_of_len b)%Q.
Proof.
  intros Ha Hb. unfold Qdiv. apply Qmult_le_compat_r.
  - apply float_of_len_le. exact Ha.
  - apply Qinv_le_0_compat. apply Qlt_le_weak. apply float_of_len_pos. exact Hb.
Qed.

Lemma ratio_eq_one (a b : nat) :
  0 < b -> (float_of_len a / float_of_len b == 1)%Q <-> a = b.
Proof.
  intros Hb. pose proof (float_of_len_nonzero b Hb) as Hnz. split.
  - intros H. apply float_of_len_inj.
    rewrite <- (Qmult_div_r (float_of_len a) (float_of_len b) Hnz), H.
    apply Qmult_1_r.
  - intros ->. unfold Qdiv. apply Qmult_inv_r. exact Hnz.
Qed.

Lemma ratio_eq_zero (a b : nat) :
  0 < b -> (float_of_len a / float_of_len b == 0)%Q <-> a = 0.
Proof.
  intros Hb. pose proof (float_of_len_nonzero b Hb) as Hnz. split.
  - intros H. apply float_of_len_inj.
    rewrite <- (Qmult_div_r (float_of_len a) (float_of_len b) Hnz), H.
    apply Qmult_0_r.
  - intros ->. unfold Qdiv. apply Qmult_0_l.
Qed.

(** X3.  The overlap ratio grows with the resume: tokens added to the resume
    never lower the ratio of a posting.  It depends on the resume only
    through the tokens the resume shares with the posting. *)
Theorem overlap_ratio_monotone :
  (forall r1 r2 j : gset pystr,
     r1 ⊆ r2 -> (_overlap_ratio r1 j <= _overlap_ratio r2 j)%Q) /\
  (forall r j : gset pystr, _overlap_ratio (r ∩ j) j = _overlap_ratio r j).
Proof.
  split.
  - intros r1 r2 j Hsub. unfold _overlap_ratio. case_bool_decide as Hj.
    + apply Qle_refl.
    + apply ratio_mono.
      * apply subseteq_size. apply intersection_mono_r. exact Hsub.
      * apply size_pos_of_nonempty. exact Hj.
  - intros r j. unfold _overlap_ratio.
    assert (E : r ∩ j ∩ j = r ∩ j).
    { apply set_eq. intros x. rewrite !elem_of_intersection. tauto. }
    rewrite E. reflexivity.
Qed.

(** A resume that gains the word [sql] against a posting that asks for it. *)
Lemma overlap_ratio_monotone_witness :
  (_overlap_ratio {[ lit "python" ]} {[ lit "python"; lit "sql" ]}
   <= _overlap_ratio {[ lit "python"; lit "sql" ]} {[ lit "python"; lit "sql" ]})%Q.
Proof.
  destruct overlap_ratio_monotone as (H & _). apply H.
  refine (bool_decide_unpack _ _). vm_compute. exact I.
Defined.

(** X4.  The ends of the scale: the ratio is 0 exactly when the resume
    shares no token with the posting, and, for a posting that has tokens, it
    is 1 exactly when every token of the posting is in the resume. *)
Theorem overlap_ratio_extremes (r j : gset pystr) :
  ((_overlap_ratio r j == 0)%Q <-> r ∩ j = ∅) /\
  (j <> ∅ -> ((_overlap_ratio r j == 1)%Q <-> j ⊆ r)).
Proof.
  unfold _overlap_ratio. case_bool_decide as Hj.
  - split; [|contradiction].
    split; [|reflexivity]. intros _. subst j.
    apply set_eq. intros x. rewrite elem_of_intersection, elem_of_empty. tauto.
  - pose proof (size_pos_of_nonempty j Hj) as Hpos. split.
    + rewrite ratio_eq_zero by exact Hpos. split.
      * intros H. apply size_empty_iff in H. apply leibniz_equiv. exact H.
      * intros ->. apply size_empty.
    + intros _. rewrite ratio_eq_one by exact Hpos. split.
      * intros H.
        pose proof (set_subseteq_size_eq (r ∩ j) j (intersection_subseteq_r r j)
                      ltac:(lia)) as E.
        intros x Hx. rewrite <- E in Hx. apply elem_of_intersection in Hx. tauto.
      * intros Hsub. f_equal. apply leibniz_equiv.
        intros x. rewrite elem_of_intersection. split; [tauto|].
        intros Hx. split; [apply Hsub|]; exact Hx.
Qed.

(** ** The rounded score *)

Lemma py_round_floor (x : Q) : (Qfloor x <= py_round x <= Qfloor x + 1)%Z.
Proof.
  unfold py_round.
  destruct (x - inject_Z (Qfloor x) ?= 1 # 2)%Q; [destruct (Z.even (Qfloor x))| |]; lia.
Qed.

Lemma py_round_mono (x y : Q) : (x <= y)%Q -> (py_round x <= py_round y)%Z.
Proof.
  intros Hxy. pose proof (Qfloor_resp_le x y Hxy) as Hf.
  destruct (Z.eq_dec (Qfloor x) (Qfloor y)) as [E|E].
  - unfold py_round. rewrite E.
    assert (Hfrac : (x - inject_Z (Qfloor y) <= y - inject_Z (Qfloor y))%Q).
    { apply Qplus_le_l. exact Hxy. }
    destruct (x - inject_Z (Qfloor y) ?= 1 # 2)%Q eqn:Cx;
      destruct (y - inject_Z (Qfloor y) ?= 1 # 2)%Q eqn:Cy;
      try (destruct (Z.even (Qfloor y)); lia); try lia; exfalso.
    + apply Qeq_alt in Cx. apply Qlt_alt in Cy. rewrite Cx in Hfrac.
      apply (Qlt_not_le _ _ Cy Hfrac).
    + apply Qgt_alt in Cx. apply Qeq_alt in Cy. rewrite Cy in Hfrac.
      apply (Qlt_not_le _ _ Cx Hfrac).
    + apply Qgt_alt in Cx. apply Qlt_alt in Cy.
      apply (Qlt_not_le _ _ (Qlt_trans _ _ _ Cy Cx) Hfrac).
  - pose proof (py_round_floor x). pose proof (py_round_floor y). lia.
Qed.

Lemma py_round_int (n : Z) : py_round (inject_Z n) = n.
Proof.
  unfold py_round. rewrite Qfloor_Z.
  assert (E : (inject_Z n - inject_Z n ?= 1 # 2)%Q = Lt).
  { apply Qlt_alt. apply Qle_lt_trans with (y := 0%Q); [|reflexivity].
    apply Qle_minus_iff. ring_simplify. apply Qle_refl. }
  rewrite E. reflexivity.
Qed.

Lemma label_score_bounds (q : Q) :
  (0 <= q)%Q -> (q <= 1)%Q ->
  match _fit_label q with
  | GoodFit => (25 <= py_round (q * 100) <= 100)%Z
  | Stretch => (12 <= py_round (q * 100) <= 25)%Z
  | NotRecommended => (0 <= py_round (q * 100) <= 12)%Z
  end.
Proof.
  intros H0 H1. pose proof (py_round_range q H0 H1) as Hr.
  assert (Hge : forall n : positive, (Z.pos n # 100 <= q)%Q ->
                                     (Z.pos n <= py_round (q * 100))%Z).
  { intros n Hn. rewrite <- (py_round_int (Z.pos n)). apply py_round_mono.
    apply Qle_trans with (y := ((Z.pos n # 100) * 100)%Q).
    - unfold Qle, Qmult, inject_Z. simpl. lia.
    - apply Qmult_le_compat_r; [exact Hn|discriminate]. }
  assert (Hlt : forall n : positive, ~ (Z.pos n # 100 <= q)%Q ->
                                     (py_round (q * 100) <= Z.pos n)%Z).
  { intros n Hn. rewrite <- (py_round_int (Z.pos n)). apply py_round_mono.
    apply Qnot_le_lt in Hn. apply Qlt_le_weak in Hn.
    apply Qle_trans with (y := ((Z.pos n # 100) * 100)%Q).
    - apply Qmult_le_compat_r; [exact Hn|discriminate].
    - unfold Qle, Qmult, inject_Z. simpl. lia. }
  unfold _fit_label, OVERLAP_GOOD, OVERLAP_STRETCH.
  destruct (Qle_bool (25 # 100) q) eqn:Eg.
  - apply Qle_bool_iff in Eg. split; [apply (Hge 25%positive Eg)|lia].
  - assert (Hng : ~ (25 # 100 <= q)%Q).
    { intros H. apply Qle_bool_iff in H. congruence. }
    destruct (Qle_bool (12 # 100) q) eqn:Es.
    + apply Qle_bool_iff in Es. split; [apply (Hge 12%positive Es)|apply (Hlt 25%positive Hng)].
    + assert (Hns : ~ (12 # 100 <= q)%Q).
      { intros H. apply Qle_bool_iff in H. congruence. }
      split; [lia|apply (Hlt 12%positive Hns)].
Qed.

(** ** The scored postings *)

(** A run of [quick_score_jobs] on a list of posting dicts, and what the new
    dicts hold. *)
Lemma quick_score_jobs_run (fmt : pyval -> pystr) (resume : pyval)
    (jobs : loc) (items : list loc) (h : heap) :
  h !! jobs = Some (OList items) ->
  Forall (fun j => is_Some (heap_dict h j)) items ->
  exists out outs h',
    quick_score_jobs fmt resume jobs h = Some (out, h') /\
    h' !! out = Some (OList outs) /\
    length outs = length items /\
    (forall i j, items !! i = Some j ->
       exists o d, outs !! i = Some o /\ heap_dict h j = Some d /\
                   heap_dict h' o = Some (scored fmt resume d)).
Proof.
  intros Hjobs Hitems.
  pose proof (fresh_unused h) as Hfresh.
  set (out := fresh (dom h)) in *.
  set (h0 := <[out := OList []]> h).
  assert (Hout0 : h0 !! out = Some (OList [])) by apply lookup_insert_eq.
  assert (Hold0 : forall l, is_Some (h !! l) -> h0 !! l = h !! l).
  { intros l [x Hx]. assert (l <> out) by (intros ->; congruence).
    unfold h0. now rewrite lookup_insert_ne by congruence. }
  assert (Hdict0 : forall l d, heap_dict h l = Some d -> heap_dict h0 l = Some d).
  { intros l d Hd. apply heap_dict_Some in Hd. apply heap_dict_Some.
    rewrite Hold0; eauto. }
  assert (Hitems0 : Forall (fun j => is_Some (heap_dict h0 j)) items).
  { eapply Forall_impl; [exact Hitems|]. intros l [x Hx]. exists x. now apply Hdict0. }
  destruct (score_loop_spec fmt resume items h0 out [] Hout0 Hitems0)
    as (new & h' & Hloop & Hout' & Hlen & Hkeep & Hnew).
  exists out, new, h'. split; [|split; [|split]].
  - unfold quick_score_jobs, alloc. fold out. cbv zeta. fold h0.
    unfold heap_list. rewrite Hold0 by eauto. rewrite Hjobs.
    cbn [mbind option_bind]. rewrite Hloop. reflexivity.
  - exact Hout'.
  - exact Hlen.
  - intros i j Hi. destruct (Hnew i j Hi) as (o & d & Ho & Hd & _ & Hsc).
    exists o, d. split; [exact Ho|]. split.
    + assert (Hj : is_Some (heap_dict h j)).
      { eapply Forall_lookup_1 in Hitems; [exact Hitems | exact Hi]. }
      destruct Hj as [d0 Hd0]. rewrite (Hdict0 j d0 Hd0) in Hd. congruence.
    + apply heap_dict_Some. exact Hsc.
Qed.

Lemma scored_lookup (fmt : pyval -> pystr) (resume : pyval) (d : gmap pystr pyval) :
  scored fmt resume d !! lit "fit_label"
    = Some (PStr (label_text (_fit_label (posting_ratio fmt resume d)))) /\
  scored fmt resume d !! lit "overlap_score"
    = Some (PInt (py_round (posting_ratio fmt resume d * 100))) /\
  scored fmt resume d !! lit "title" = d !! lit "title" /\
  scored fmt resume d !! lit "description" = d !! lit "description".
Proof.
  unfold scored. repeat split.
  - rewrite lookup_insert_ne by discriminate. apply lookup_insert_eq.
  - apply lookup_insert_eq.
  - now rewrite !lookup_insert_ne by discriminate.
  - now rewrite !lookup_insert_ne by discriminate.
Qed.

Lemma posting_ratio_scored (fmt : pyval -> pystr) (resume : pyval) (d : gmap pystr pyval) :
  posting_ratio fmt resume (scored fmt resume d) = posting_ratio fmt resume d.
Proof.
  destruct (scored_lookup fmt resume d) as (_ & _ & Ht & Hd).
  unfold posting_ratio, field_text. rewrite Ht, Hd. reflexivity.
Qed.

Lemma scored_idem (fmt : pyval -> pystr) (resume : pyval) (d : gmap pystr pyval) :
  scored fmt resume (scored fmt resume d) = scored fmt resume d.
Proof.
  unfold scored at 1. rewrite posting_ratio_scored. unfold scored.
  rewrite (insert_insert_ne _ (lit "fit_label") (lit "overlap_score")) by discriminate.
  rewrite insert_insert_eq.
  rewrite insert_insert_eq. reflexivity.
Qed.

(** X5.  In every posting that [quick_score_jobs] returns the label and the
    percentage agree: a Good Fit has an [overlap_score] of 25 to 100, a
    Stretch one of 12 to 25, a posting that is Not Recommended one of 0 to
    12 (the percentage is rounded, so 25 and 12 occur on both sides). *)
Theorem label_matches_score (fmt : pyval -> pystr) (resume : pyval)
    (jobs : loc) (items : list loc) (h : heap) :
  h !! jobs = Some (OList items) ->
  Forall (fun j => is_Some (heap_dict h j)) items ->
  exists out outs h',
    quick_score_jobs fmt resume jobs h = Some (out, h') /\
    h' !! out = Some (OList outs) /\
    forall o, In o outs ->
      exists d l z,
        heap_dict h' o = Some d /\
        d !! lit "fit_label" = Some (PStr (label_text l)) /\
        d !! lit "overlap_score" = Some (PInt z) /\
        match l with
        | GoodFit => (25 <= z <= 100)%Z
        | Stretch => (12 <= z <= 25)%Z
        | NotRecommended => (0 <= z <= 12)%Z
        end.
Proof.
  intros Hjobs Hitems.
  destruct (quick_score_jobs_run fmt resume jobs items h Hjobs Hitems)
    as (out & outs & h' & Hrun & Hout & Hlen & Hnew).
  exists out, outs, h'. split; [exact Hrun|]. split; [exact Hout|].
  intros o Ho. apply list_elem_of_In, list_elem_of_lookup_1 in Ho as [i Hi].
  assert (Hlt : i < length items).
  { rewrite <- Hlen. eapply lookup_lt_Some. exact Hi. }
  destruct (lookup_lt_is_Some_2 items i Hlt) as [j Hj].
  destruct (Hnew i j Hj) as (o' & d & Ho' & _ & Hd).
  assert (o' = o) by congruence. subst o'.
  destruct (scored_lookup fmt resume d) as (Hl & Hz & _).
  exists (scored fmt resume d), (_fit_label (posting_ratio fmt resume d)),
    (py_round (posting_ratio fmt resume d * 100)).
  split; [exact Hd|]. split; [exact Hl|]. split; [exact Hz|].
  apply label_score_bounds; apply overlap_ratio_range.
Qed.

(** The two postings of [two_postings], scored. *)
Lemma label_matches_score_witness :
  exists out outs h',
    quick_score_jobs (fun _ => lit "<object>") (PStr (lit "python sql")) 1%positive
      two_postings = Some (out, h') /\
    h' !! out = Some (OList outs).
Proof.
  destruct (label_matches_score (fun _ => lit "<object>") (PStr (lit "python sql"))
              1%positive [2%positive; 3%positive] two_postings)
    as (out & outs & h' & Hrun & Hout & _).
  - reflexivity.
  - repeat constructor; eexists; reflexivity.
  - exists out, outs, h'. split; [exact Hrun|exact Hout].
Defined.

(** X6.  Scoring is stable: when the list [quick_score_jobs] returned is
    scored again with the same resume, every posting of the second result
    holds what the posting at its place in the first result holds. *)
Theorem rescoring_is_stable (fmt : pyval -> pystr) (resume : pyval)
    (jobs : loc) (items : list loc) (h : heap) :
  h !! jobs = Some (OList items) ->
  Forall (fun j => is_Some (heap_dict h j)) items ->
  exists out outs h' out2 outs2 h'',
    quick_score_jobs fmt resume jobs h = Some (out, h') /\
    h' !! out = Some (OList outs) /\
    quick_score_jobs fmt resume out h' = Some (out2, h'') /\
    h'' !! out2 = Some (OList outs2) /\
    length outs2 = length outs /\
    forall i o, outs !! i = Some o ->
      exists o2 d, outs2 !! i = Some o2 /\
                   heap_dict h' o = Some d /\ heap_dict h'' o2 = Some d.
Proof.
  intros Hjobs Hitems.
  destruct (quick_score_jobs_run fmt resume jobs items h Hjobs Hitems)
    as (out & outs & h' & Hrun & Hout & Hlen & Hnew).
  assert (Hscored : forall i o, outs !! i = Some o ->
            exists d, heap_dict h' o = Some (scored fmt resume d)).
  { intros i o Hi.
    assert (Hlt : i < length items).
    { rewrite <- Hlen. eapply lookup_lt_Some. exact Hi. }
    destruct (lookup_lt_is_Some_2 items i Hlt) as [j Hj].
    destruct (Hnew i j Hj) as (o' & d & Ho' & _ & Hd).
    assert (o' = o) by congruence. subst o'. eauto. }
  assert (Houts : Forall (fun j => is_Some (heap_dict h' j)) outs).
  { apply Forall_lookup_2. intros i o Hi.
    destruct (Hscored i o Hi) as (d & Hd). eauto. }
  destruct (quick_score_jobs_run fmt resume out outs h' Hout Houts)
    as (out2 & outs2 & h'' & Hrun2 & Hout2 & Hlen2 & Hnew2).
  exists out, outs, h', out2, outs2, h''.
  split; [exact Hrun|]. split; [exact Hout|]. split; [exact Hrun2|].
  split; [exact Hout2|]. split; [exact Hlen2|].
  intros i o Hi. destruct (Hnew2 i o Hi) as (o2 & d' & Ho2 & Hd' & Hd2).
  destruct (Hscored i o Hi) as (d & Hd).
  assert (d' = scored fmt resume d) by congruence. subst d'.
  rewrite scored_idem in Hd2. eauto.
Qed.

(** The two postings of [two_postings], scored twice. *)
Lemma rescoring_is_stable_witness :
  exists out outs h' out2 (outs2 : list loc) h'',
    quick_score_jobs (fun _ => lit "<object>") (PStr (lit "python sql")) 1%positive
      two_postings = Some (out, h') /\
    h' !! out = Some (OList outs) /\
    quick_score_jobs (fun _ => lit "<object>") (PStr (lit "python sql")) out h'
      = Some (out2, h'') /\
    length outs2 = length outs.
Proof.
  destruct (rescoring_is_stable (fun _ => lit "<object>") (PStr (lit "python sql"))
              1%positive [2%positive; 3%positive] two_postings)
    as (out & outs & h' & out2 & outs2 & h'' & H1 & H2 & H3 & _ & H5 & _).
  - reflexivity.
  - repeat constructor; eexists; reflexivity.
  - exists out, outs, h', out2, outs2, h''. repeat split; assumption.
Defined.

Lemma overlap_ratio_disjoint (r j : gset pystr) :
  r ∩ j = ∅ -> (_overlap_ratio r j == 0)%Q.
Proof.
  intros H. unfold _overlap_ratio. case_bool_decide as Hj; [reflexivity|].
  rewrite H. apply ratio_eq_zero; [apply size_pos_of_nonempty; exact Hj|apply size_empty].
Qed.

Lemma ratio_zero_scores (q : Q) :
  (q == 0)%Q -> _fit_label q = NotRecommended /\ py_round (q * 100) = 0%Z.
Proof.
  intros H. split.
  - unfold _fit_label, OVERLAP_GOOD, OVERLAP_STRETCH.
    destruct (Qle_bool (25 # 100) q) eqn:Eg.
    { apply Qle_bool_iff in Eg. rewrite H in Eg. exfalso. apply Eg. reflexivity. }
    destruct (Qle_bool (12 # 100) q) eqn:Es; [|reflexivity].
    apply Qle_bool_iff in Es. rewrite H in Es. exfalso. apply Es. reflexivity.
  - assert (H0 : py_round 0 = 0%Z) by reflexivity.
    assert (Hle : (q * 100 <= 0)%Q) by (rewrite H; discriminate).
    assert (Hge : (0 <= q * 100)%Q) by (rewrite H; discriminate).
    apply py_round_mono in Hle. apply py_round_mono in Hge. lia.
Qed.

Lemma tokenize_not_text (v : pyval) :
  truthy v = false \/ (forall s, v <> PStr s) -> _tokenize (or_empty v) = ∅.
Proof.
  intros [H|H].
  - unfold or_empty. rewrite H. reflexivity.
  - unfold or_empty. destruct (truthy v); [|reflexivity].
    destruct v; try reflexivity. exfalso. eapply H. reflexivity.
Qed.

(** X7.  A resume that is missing, empty or not a string has no tokens:
    every posting [quick_score_jobs] returns for it is Not Recommended with
    an [overlap_score] of 0, whatever the posting says. *)
Theorem no_resume_no_match (fmt : pyval -> pystr) (resume : pyval)
    (jobs : loc) (items : list loc) (h : heap) :
  truthy resume = false \/ (forall s, resume <> PStr s) ->
  h !! jobs = Some (OList items) ->
  Forall (fun j => is_Some (heap_dict h j)) items ->
  exists out outs h',
    quick_score_jobs fmt resume jobs h = Some (out, h') /\
    h' !! out = Some (OList outs) /\
    forall o, In o outs ->
      exists d,
        heap_dict h' o = Some d /\
        d !! lit "fit_label" = Some (PStr (label_text NotRecommended)) /\
        d !! lit "overlap_score" = Some (PInt 0).
Proof.
  intros Hres Hjobs Hitems.
  destruct (quick_score_jobs_run fmt resume jobs items h Hjobs Hitems)
    as (out & outs & h' & Hrun & Hout & Hlen & Hnew).
  exists out, outs, h'. split; [exact Hrun|]. split; [exact Hout|].
  intros o Ho. apply list_elem_of_In, list_elem_of_lookup_1 in Ho as [i Hi].
  assert (Hlt : i < length items).
  { rewrite <- Hlen. eapply lookup_lt_Some. exact Hi. }
  destruct (lookup_lt_is_Some_2 items i Hlt) as [j Hj].
  destruct (Hnew i j Hj) as (o' & d & Ho' & _ & Hd).
  assert (o' = o) by congruence. subst o'.
  destruct (scored_lookup fmt resume d) as (Hl & Hz & _).
  assert (Hq : (posting_ratio fmt resume d == 0)%Q).
  { unfold posting_ratio. rewrite (tokenize_not_text resume Hres).
    apply overlap_ratio_disjoint.
    apply set_eq. intros x. rewrite elem_of_intersection, elem_of_empty. tauto. }
  destruct (ratio_zero_scores _ Hq) as (El & Ez).
  rewrite El in Hl. rewrite Ez in Hz.
  exists (scored fmt resume d). split; [exact Hd|]. split; [exact Hl|exact Hz].
Qed.

(** No resume was uploaded: the session holds the empty string. *)
Lemma no_resume_no_match_witness :
  exists out outs h',
    quick_score_jobs (fun _ => lit "<object>") (PStr []) 1%positive two_postings
      = Some (out, h') /\
    h' !! out = Some (OList outs).
Proof.
  destruct (no_resume_no_match (fun _ => lit "<object>") (PStr [])
              1%positive [2%positive; 3%positive] two_postings)
    as (out & outs & h' & Hrun & Hout & _).
  - left. reflexivity.
  - reflexivity.
  - repeat constructor; eexists; reflexivity.
  - exists out, outs, h'. split; [exact Hrun|exact Hout].
Defined.

(** ** [strip] and [_get_content] *)

Lemma lstrip_split (s : pystr) :
  exists pre, s = pre ++ lstrip s /\ Forall (fun c => is_space c = true) pre.
Proof.
  induction s as [|c s (pre & Hs & Hpre)].
  - exists []. split; [reflexivity|constructor].
  - cbn [lstrip]. destruct (is_space c) eqn:Hc.
    + exists (c :: pre). split; [cbn; congruence|]. constructor; assumption.
    + exists []. split; [reflexivity|constructor].
Qed.

Lemma lstrip_head (s : pystr) (c : ascii) (r : pystr) :
  lstrip s = c :: r -> is_space c = false.
Proof.
  induction s as [|x s IH]; [discriminate|].
  cbn [lstrip]. destruct (is_space x) eqn:Hx; [exact IH|].
  intros H. injection H as <- _. exact Hx.
Qed.

Lemma lstrip_blank (s : pystr) :
  Forall (fun c => is_space c = true) s -> lstrip s = [].
Proof.
  induction 1 as [|c s Hc _ IH]; [reflexivity|].
  cbn [lstrip]. rewrite Hc. exact IH.
Qed.

Lemma strip_trimmed (s : pystr) : trimmed (strip s).
Proof.
  unfold strip. set (a := lstrip s). set (b := lstrip (rev a)). split.
  - intros c r Hb.
    assert (Hb' : b = rev r ++ [c]).
    { rewrite <- (rev_involutive b), Hb. reflexivity. }
    destruct (lstrip_split (rev a)) as (pre & Ha & _). fold b in Ha.
    assert (Ha' : a = c :: rev (pre ++ rev r)).
    { rewrite <- (rev_involutive a), Ha, Hb', app_assoc, rev_app_distr. reflexivity. }
    eapply lstrip_head. exact Ha'.
  - intros r c Hb.
    assert (Hb' : b = c :: rev r).
    { rewrite <- (rev_involutive b), Hb, rev_app_distr. reflexivity. }
    eapply lstrip_head. exact Hb'.
Qed.

Lemma strip_blank (s : pystr) :
  Forall (fun c => is_space c = true) s -> strip s = [].
Proof. intros H. unfold strip. rewrite (lstrip_blank s H). reflexivity. Qed.

Lemma get_content_shape (resp : response) (fmt : pyval -> pystr) (s : pystr) :
  _get_content resp fmt = Ok s -> s = [] \/ exists x, s = strip x.
Proof.
  assert (Hs : forall v, str_strip (or_empty v) = Ok s -> s = [] \/ exists x, s = strip x).
  { intros v H. unfold str_strip in H. destruct (or_empty v); try discriminate.
    injection H as <-. right. eauto. }
  unfold _get_content. destruct resp as [|content|d|v].
  - intros H. injection H as <-. left. reflexivity.
  - apply Hs.
  - destruct (if truthy (default PNone (d !! lit "message"))
              then default PNone (d !! lit "message")
              else default PNone (d !! lit "content")); apply Hs.
  - intros H. injection H as <-. right. eauto.
Qed.

(** X8.  Whatever [_get_content] returns neither starts nor ends with
    whitespace, and a reply whose content is nothing but whitespace gives the
    empty string: to the drafter and the grader such a reply is an empty
    one. *)
Theorem get_content_is_trimmed (fmt : pyval -> pystr) :
  (forall resp s, _get_content resp fmt = Ok s -> trimmed s) /\
  (forall s, Forall (fun c => is_space c = true) s ->
             _get_content (RMessage (PStr s)) fmt = Ok []).
Proof.
  split.
  - intros resp s H. apply get_content_shape in H as [->|(x & ->)].
    + split; [intros c r H; discriminate|].
      intros r c H. destruct r; discriminate.
    + apply strip_trimmed.
  - intros s Hs. unfold _get_content, or_empty. cbn [truthy].
    case_bool_decide as He; cbn [negb str_strip].
    + reflexivity.
    + rewrite (strip_blank s Hs). reflexivity.
Qed.

(** A reply of two blanks and a line feed. *)
Lemma get_content_is_trimmed_witness :
  _get_content (RMessage (PStr (lit "  " ++ nl))) (fun _ => lit "<object>") = Ok [].
Proof.
  destruct (get_content_is_trimmed (fun _ => lit "<object>")) as (_ & H).
  apply H. repeat constructor.
Defined.

(** X9.  [_get_content] raises in one case only: the content it is about to
    strip is a true value that is no string (a list of content parts, a
    number); the exception is the [AttributeError] of the missing [strip].
    For [None], for an object whose content is [None] or empty, and for a
    dict without [message] and [content] it returns the empty string. *)
Theorem get_content_raises_only_on_non_text (fmt : pyval -> pystr) :
  (forall resp e, _get_content resp fmt = Raise e ->
     exists v, e = AttributeError v (lit "strip") /\ truthy v = true /\
               forall s, v <> PStr s) /\
  _get_content RNone fmt = Ok [] /\
  (forall v, truthy v = false -> _get_content (RMessage v) fmt = Ok []) /\
  (forall d, d !! lit "message" = None -> d !! lit "content" = None ->
             _get_content (RDict d) fmt = Ok []) /\
  (forall v, truthy v = true -> (forall s, v <> PStr s) ->
             _get_content (RMessage v) fmt = Raise (AttributeError v (lit "strip"))).
Proof.
  assert (Hs : forall v e, str_strip (or_empty v) = Raise e ->
             exists v0, e = AttributeError v0 (lit "strip") /\ truthy v0 = true /\
                        forall s, v0 <> PStr s).
  { intros v e H. unfold or_empty in H. destruct (truthy v) eqn:Ht; [|discriminate].
    exists v. destruct v; try discriminate; injection H as <-;
      (split; [reflexivity|split; [exact Ht|intros s0; discriminate]]). }
  split; [|split; [|split; [|split]]].
  - intros resp e. unfold _get_content. destruct resp as [|content|d|v]; try discriminate.
    + apply Hs.
    + destruct (if truthy (default PNone (d !! lit "message"))
                then default PNone (d !! lit "message")
                else default PNone (d !! lit "content")); apply Hs.
  - reflexivity.
  - intros v Ht. unfold _get_content, or_empty. rewrite Ht. reflexivity.
  - intros d Hm Hc. unfold _get_content. rewrite Hm, Hc. reflexivity.
  - intros v Ht Hv. unfold _get_content, or_empty. rewrite Ht.
    destruct v; try reflexivity. exfalso. eapply Hv. reflexivity.
Qed.

(** A message whose content is a list of parts. *)
Lemma get_content_raises_only_on_non_text_witness :
  _get_content (RMessage (PList [PStr (lit "part")])) (fun _ => lit "<object>")
  = Raise (AttributeError (PList [PStr (lit "part")]) (lit "strip")).
Proof.
  destruct (get_content_raises_only_on_non_text (fun _ => lit "<object>"))
    as (_ & _ & _ & _ & H).
  apply H; [reflexivity|discriminate].
Defined.

(** ** The patterns of [_extract_json] *)

Lemma any_char_true (c : ascii) : any_char c = true.
Proof. unfold any_char. destruct (is_space c); reflexivity. Qed.

Lemma strip_prefix_suffix (w s s' : pystr) :
  strip_prefix w s = Some s' -> exists pre, s = pre ++ s'.
Proof.
  revert s. induction w as [|a w IH]; intros s H.
  - injection H as <-. exists []. reflexivity.
  - destruct s as [|b s]; [discriminate|]. cbn [strip_prefix] in H.
    case_bool_decide; [|discriminate].
    destruct (IH s H) as (pre & ->). exists (b :: pre). reflexivity.
Qed.

Lemma eat_suffix (n : nat) (p : ascii -> bool) (s s' : pystr) :
  eat n p s = Some s' -> exists pre, s = pre ++ s'.
Proof.
  revert s. induction n as [|n IH]; intros s H.
  - injection H as <-. exists []. reflexivity.
  - destruct s as [|b s]; [discriminate|]. cbn [eat] in H.
    destruct (p b); [|discriminate].
    destruct (IH s H) as (pre & ->). exists (b :: pre). reflexivity.
Qed.

Lemma not_in_suffix (c : ascii) (pre s : pystr) : ~ In c (pre ++ s) -> ~ In c s.
Proof. intros H Hin. apply H. apply in_or_app. right. exact Hin. Qed.

(** A star cannot succeed when what follows it fails on every text that is
    left. *)
Lemma star_greedy_none {R} (p : ascii -> bool) (k : pystr -> option R) (s : pystr) :
  (forall pre s', s = pre ++ s' -> k s' = None) -> star_greedy p k s = None.
Proof.
  induction s as [|c s IH]; intros Hk.
  - cbn. apply (Hk [] []). reflexivity.
  - cbn [star_greedy]. rewrite (Hk [] (c :: s) eq_refl).
    destruct (p c); [|reflexivity].
    rewrite IH; [reflexivity|]. intros pre s' ->. apply (Hk (c :: pre)). reflexivity.
Qed.

Lemma star_lazy_none {R} (p : ascii -> bool) (k : pystr -> option R) (s : pystr) :
  (forall pre s', s = pre ++ s' -> k s' = None) -> star_lazy p k s = None.
Proof.
  induction s as [|c s IH]; intros Hk.
  - cbn. rewrite (Hk [] [] eq_refl). reflexivity.
  - cbn [star_lazy]. rewrite (Hk [] (c :: s) eq_refl).
    destruct (p c); [|reflexivity].
    apply IH. intros pre s' ->. apply (Hk (c :: pre)). reflexivity.
Qed.

(** A pattern with a literal character matches no text without it. *)
Lemma match_here_needs_lit (c : ascii) (pat : list atom) :
  In (Lit c) pat ->
  forall s opened grp, ~ In c s -> match_here pat s opened grp = None.
Proof.
  induction pat as [|a pat IH]; intros Hin s opened grp Hs; [destruct Hin|].
  destruct a as [x|p|w|p|p|n p| |]; cbn [match_here].
  - destruct s as [|y s]; [reflexivity|]. case_bool_decide as Hy; [|reflexivity].
    subst y. destruct Hin as [Hx|Hin].
    + injection Hx as ->. exfalso. apply Hs. left. reflexivity.
    + apply IH; [exact Hin|]. intros H. apply Hs. right. exact H.
  - destruct Hin as [Hx|Hin]; [discriminate|].
    destruct s as [|y s]; [reflexivity|]. destruct (p y); [|reflexivity].
    apply IH; [exact Hin|]. intros H. apply Hs. right. exact H.
  - destruct Hin as [Hx|Hin]; [discriminate|].
    destruct (strip_prefix w s) as [s'|] eqn:Hw.
    + destruct (strip_prefix_suffix w s s' Hw) as (pre & ->).
      rewrite (IH Hin s' opened grp (not_in_suffix c pre s' Hs)).
      rewrite (IH Hin _ opened grp Hs). reflexivity.
    + apply IH; assumption.
  - destruct Hin as [Hx|Hin]; [discriminate|].
    apply star_greedy_none. intros pre s' ->. apply IH; [exact Hin|].
    eapply not_in_suffix. exact Hs.
  - destruct Hin as [Hx|Hin]; [discriminate|].
    apply star_lazy_none. intros pre s' ->. apply IH; [exact Hin|].
    eapply not_in_suffix. exact Hs.
  - destruct Hin as [Hx|Hin]; [discriminate|].
    destruct (eat n p s) as [s1|] eqn:He; [|reflexivity].
    destruct (eat_suffix n p s s1 He) as (pre0 & ->).
    apply star_greedy_none. intros pre s' ->. apply IH; [exact Hin|].
    eapply not_in_suffix. eapply not_in_suffix. exact Hs.
  - destruct Hin as [Hx|Hin]; [discriminate|]. apply IH; assumption.
  - destruct Hin as [Hx|Hin]; [discriminate|]. apply IH; assumption.
Qed.

Lemma re_search_needs_lit (c : ascii) (pat : list atom) (s : pystr) :
  In (Lit c) pat -> ~ In c s -> re_search pat s = None.
Proof.
  intros Hin. induction s as [|x s IH]; intros Hs.
  - cbn [re_search]. rewrite (match_here_needs_lit c pat Hin [] [] None Hs). reflexivity.
  - cbn [re_search]. rewrite (match_here_needs_lit c pat Hin (x :: s) [] None Hs).
    apply IH. intros H. apply Hs. right. exact H.
Qed.

Lemma in_lstrip (c : ascii) (s : pystr) : In c (lstrip s) -> In c s.
Proof.
  destruct (lstrip_split s) as (pre & Hs & _). intros H.
  rewrite Hs. apply in_or_app. right. exact H.
Qed.

Lemma in_strip (c : ascii) (s : pystr) : In c (strip s) -> In c s.
Proof.
  unfold strip. intros H. apply in_rev in H. apply in_lstrip in H.
  apply in_rev in H. apply in_lstrip in H. exact H.
Qed.

(** X10.  A reply without an opening brace offers nothing to the two
    patterns: [_extract_json] gives what [json.loads] makes of the whole
    stripped text, and [None] when [json.loads] rejects it. *)
Theorem extract_json_without_brace (loads : pystr -> option pyval) (raw : pystr) :
  ~ In "{"%char raw ->
  from_fenced loads (strip raw) = None /\
  from_braces loads (strip raw) = None /\
  _extract_json loads raw = default PNone (loads (strip raw)).
Proof.
  intros Hraw.
  assert (Hs : ~ In "{"%char (strip raw)).
  { intros H. apply Hraw. apply in_strip. exact H. }
  assert (Hf : from_fenced loads (strip raw) = None).
  { unfold from_fenced. rewrite (re_search_needs_lit "{"%char fenced_pattern); [reflexivity| |exact Hs].
    cbn. tauto. }
  assert (Hb : from_braces loads (strip raw) = None).
  { unfold from_braces. rewrite (re_search_needs_lit "{"%char braces_pattern); [reflexivity| |exact Hs].
    cbn. tauto. }
  split; [exact Hf|]. split; [exact Hb|].
  unfold _extract_json. rewrite Hf, Hb. reflexivity.
Qed.

(** A reply that is a bare number is decoded as that number. *)
Lemma extract_json_without_brace_witness :
  _extract_json json_decode (lit " 7 ") = PInt 7.
Proof.
  destruct (extract_json_without_brace json_decode (lit " 7 ")) as (_ & _ & H).
  - cbn. intros [H|[H|[H|[]]]]; discriminate.
  - rewrite H. vm_compute. reflexivity.
Defined.

Lemma star_greedy_skip {R} (k : pystr -> option R) (a b : pystr) (r : R) :
  star_greedy any_char k b = Some r -> star_greedy any_char k (a ++ b) = Some r.
Proof.
  intros Hb. induction a as [|c a IH]; [exact Hb|].
  cbn [app star_greedy]. rewrite any_char_true, IH. reflexivity.
Qed.

Lemma braces_at (s : pystr) :
  match_here braces_pattern ("{"%char :: s) [] None
  = star_greedy any_char (fun s' => match_here [Lit "}"%char] s' [] None) s.
Proof.
  cbn [braces_pattern match_here]. rewrite bool_decide_eq_true_2 by reflexivity.
  reflexivity.
Qed.

Lemma braces_not_at (x : ascii) (s : pystr) :
  x <> "{"%char -> match_here braces_pattern (x :: s) [] None = None.
Proof.
  intros Hx. cbn [braces_pattern match_here]. rewrite bool_decide_eq_false_2 by exact Hx.
  reflexivity.
Qed.

Lemma closing_brace_at (post : pystr) :
  match_here [Lit "}"%char] ("}"%char :: post) [] None = Some (post, None).
Proof.
  cbn [match_here]. rewrite bool_decide_eq_true_2 by reflexivity. reflexivity.
Qed.

Lemma braces_span (pre mid post : pystr) :
  ~ In "{"%char pre -> ~ In "}"%char post ->
  re_search braces_pattern (pre ++ "{"%char :: mid ++ "}"%char :: post)
  = Some ("{"%char :: mid ++ ["}"%char], None).
Proof.
  intros Hpre Hpost. induction pre as [|x pre IH].
  - cbn [app re_search]. rewrite braces_at.
    assert (Hstar : star_greedy any_char
                      (fun s' => match_here [Lit "}"%char] s' [] None)
                      (mid ++ "}"%char :: post) = Some (post, None)).
    { apply star_greedy_skip. cbn [star_greedy]. rewrite any_char_true.
      rewrite star_greedy_none.
      - cbn [orelse]. apply closing_brace_at.
      - intros p s' Hp. apply (match_here_needs_lit "}"%char); [left; reflexivity|].
        rewrite Hp in Hpost. eapply not_in_suffix. exact Hpost. }
    rewrite Hstar. unfold consumed. f_equal. f_equal.
    replace (length ("{"%char :: mid ++ "}"%char :: post) - length post)
      with (length ("{"%char :: mid ++ ["}"%char])).
    + replace ("{"%char :: mid ++ "}"%char :: post)
        with (("{"%char :: mid ++ ["}"%char]) ++ post)
        by (cbn [app]; rewrite <- app_assoc; reflexivity).
      apply take_app_length.
    + cbn [length]. rewrite !length_app. cbn [length]. lia.
  - cbn [app re_search]. rewrite braces_not_at.
    + apply IH. intros H. apply Hpre. right. exact H.
    + intros ->. apply Hpre. left. reflexivity.
Qed.

(** X11.  The second strategy of [_extract_json] hands [json.loads] the text
    from the first opening brace of the reply to its last closing brace,
    whatever lies between them: of two objects in one reply it takes both
    and what separates them. *)
Theorem braces_take_first_to_last (loads : pystr -> option pyval) (pre mid post : pystr) :
  ~ In "{"%char pre -> ~ In "}"%char post ->
  re_search braces_pattern (pre ++ "{"%char :: mid ++ "}"%char :: post)
  = Some ("{"%char :: mid ++ ["}"%char], None) /\
  from_braces loads (pre ++ "{"%char :: mid ++ "}"%char :: post)
  = loads ("{"%char :: mid ++ ["}"%char]).
Proof.
  intros Hpre Hpost. pose proof (braces_span pre mid post Hpre Hpost) as H.
  split; [exact H|]. unfold from_braces. rewrite H. reflexivity.
Qed.

(** Two objects in one reply. *)
Lemma braces_take_first_to_last_witness :
  from_braces json_decode (lit "a {1} and {2} b") = json_decode (lit "{1} and {2}").
Proof.
  destruct (braces_take_first_to_last json_decode (lit "a ") (lit "1} and {2") (lit " b"))
    as (_ & H).
  - cbn. intros [H|[H|[]]]; discriminate.
  - cbn. intros [H|[H|[]]]; discriminate.
  - exact H.
Defined.

(** ** The prompts *)

Ltac literal_lengths :=
  change (length nl) with 1; change (length dq) with 1;
  repeat match goal with
    | |- context [length (lit ?s)] =>
        let n := eval vm_compute in (length (lit s)) in
        change (length (lit s)) with n
    end.

Lemma length_slice (s : option pystr) (limit : nat) :
  length (_slice s limit) = Nat.min limit (length (default [] s)).
Proof. unfold _slice, slice_to. apply length_take. Qed.

(** X12.  The prompts keep to the context limit.  The grader's prompt is 353
    characters of instructions and the first [CONTEXT_LIMIT] characters of
    the resume, of the draft and of the job description.  The drafter's
    first prompt is 193 characters and the first [CONTEXT_LIMIT] characters
    of the resume and of the job description; a revision prompt is 169
    characters, the truncated draft and job description, and the grader's
    feedback, which goes in at its full length. *)
Theorem prompts_are_bounded (R : runtime) (st : ResumeState) :
  (exists prompt,
     grader_messages st = [(RoleHuman, prompt)] /\
     length prompt =
       353 + Nat.min CONTEXT_LIMIT (length (original_resume st))
           + Nat.min CONTEXT_LIMIT (length (current_draft st))
           + Nat.min CONTEXT_LIMIT (length (job_description st)) /\
     length prompt <= 353 + 3 * CONTEXT_LIMIT) /\
  (exists user,
     drafter_messages R st = [(RoleSystem, drafter_system); (RoleHuman, user)] /\
     (revision_count st = 0%Z -> length user <= 193 + 2 * CONTEXT_LIMIT) /\
     (revision_count st <> 0%Z ->
        length user <=
          169 + 2 * CONTEXT_LIMIT
              + length (py_format (format_other R) (or_empty (feedback st))))).
Proof.
  split.
  - eexists. split; [reflexivity|].
    rewrite !length_app, !length_slice. cbn [default from_option id]. literal_lengths.
    split; lia.
  - eexists. split; [reflexivity|]. split.
    + intros Hrev. rewrite Hrev. cbn [Z.eqb].
      rewrite !length_app, !length_slice. cbn [default from_option id]. literal_lengths. lia.
    + intros Hrev. apply Z.eqb_neq in Hrev. rewrite Hrev.
      rewrite !length_app, !length_slice. cbn [default from_option id]. literal_lengths. lia.
Qed.

(** ** The provider calls of the controller *)

Lemma calls_note (ev : event) (w : world) : calls (note ev w) = calls w.
Proof. reflexivity. Qed.

Lemma calls_asked (msgs : list message) (w : world) : calls (asked msgs w) = S (calls w).
Proof. reflexivity. Qed.

Lemma exec_node_calls (R : runtime) (status : bool) (n : node) (st : ResumeState)
    (w : world) (r : result update) (w1 : world) :
  exec_node R status n st w = (r, w1) ->
  calls w1 = calls w + (if has_key R then 1 else 0).
Proof.
  rewrite exec_node_eq. destruct n; cbn [node_body].
  - rewrite drafter_node_eq. destruct (has_key R); intros H; injection H as _ <-.
    + rewrite calls_asked, calls_told, calls_note. lia.
    + rewrite calls_note, calls_told, calls_note. lia.
  - rewrite grader_node_eq. destruct (has_key R); intros H; injection H as _ <-.
    + rewrite calls_asked, calls_told, calls_note. lia.
    + rewrite calls_note, calls_told, calls_note. lia.
Qed.

(** The provider is called once in every execution of a node. *)
Lemma run_calls (R : runtime) (status : bool) n st w res :
  run R status n st w res ->
  has_key R = true ->
  calls (snd res) + node_runs Drafter w + node_runs Grader w
  = calls w + node_runs Drafter (snd res) + node_runs Grader (snd res) /\
  node_runs Grader w <= node_runs Grader (snd res).
Proof.
  intros Hrun Hkey.
  assert (Hround : forall st w res, round R status st w res ->
            calls (snd res) + node_runs Drafter w + node_runs Grader w
            = calls w + node_runs Drafter (snd res) + node_runs Grader (snd res) /\
            node_runs Grader w <= node_runs Grader (snd res)).
  { clear Hrun. intros st0 w0 res0 Hr.
    inversion Hr as [e w1 H1|u1 w1 e w2 H1 H2|u1 w1 u2 w2 H1 H2]; subst; cbn [snd].
    - pose proof (exec_node_calls _ _ _ _ _ _ _ H1) as Hc. rewrite Hkey in Hc.
      apply exec_drafter in H1 as (Hd & Hg & _). lia.
    - pose proof (exec_node_calls _ _ _ _ _ _ _ H1) as Hc1.
      pose proof (exec_node_calls _ _ _ _ _ _ _ H2) as Hc2. rewrite Hkey in Hc1, Hc2.
      apply exec_drafter in H1 as (Hd1 & Hg1 & _).
      apply exec_grader in H2 as (Hg2 & Hd2 & _). lia.
    - pose proof (exec_node_calls _ _ _ _ _ _ _ H1) as Hc1.
      pose proof (exec_node_calls _ _ _ _ _ _ _ H2) as Hc2. rewrite Hkey in Hc1, Hc2.
      apply exec_drafter in H1 as (Hd1 & Hg1 & _).
      apply exec_grader in H2 as (Hg2 & Hd2 & _). lia. }
  induction Hrun as [st w e w' Hr|st w st' w' Hr Hroute|n st w st' w' res Hr Hroute Hrun IH].
  - apply (Hround _ _ _ Hr).
  - apply (Hround _ _ _ Hr).
  - pose proof (Hround _ _ _ Hr) as H1. cbn [snd] in H1. lia.
Qed.

(** X13.  Without a [GEMINI_API_KEY] in the secrets the controller stops in
    its first drafter step: the error is shown with [st.error], the
    [StopException] of [st.stop()] reaches the caller, and the provider has
    not been called. *)
Theorem missing_key_stops_the_run (R : runtime) (status : bool)
    (resume job : option pystr) (w : world) :
  has_key R = false ->
  optimize_resume_iterative R status resume job w
  = (Raise StopException,
     note (EvStError MISSING_KEY) (told status DRAFTER_STATUS (note (EvNode Drafter) w))) /\
  calls (snd (optimize_resume_iterative R status resume job w)) = calls w /\
  node_runs Grader (snd (optimize_resume_iterative R status resume job w))
  = node_runs Grader w.
Proof.
  intros Hkey.
  assert (H : optimize_resume_iterative R status resume job w
              = (Raise StopException,
                 note (EvStError MISSING_KEY)
                   (told status DRAFTER_STATUS (note (EvNode Drafter) w)))).
  { rewrite optimize_eq. change RECURSION_LIMIT with (S 24). cbn [graph_invoke].
    unfold bind at 1. rewrite exec_node_eq. cbn [node_body].
    rewrite drafter_node_eq, Hkey. reflexivity. }
  split; [exact H|]. rewrite H. cbn [snd]. split.
  - rewrite calls_note, calls_told, calls_note. reflexivity.
  - rewrite node_runs_note, node_runs_told, node_runs_note. cbn [is_run_of]. lia.
Qed.

(** A run without the key. *)
Lemma missing_key_stops_the_run_witness :
  calls (snd (optimize_resume_iterative (scripted_runtime false [says (lit "draft")]) true
                (Some (lit "cv")) (Some (lit "job")) world0)) = 0.
Proof.
  destruct (missing_key_stops_the_run (scripted_runtime false [says (lit "draft")]) true
              (Some (lit "cv")) (Some (lit "job")) world0) as (_ & H & _).
  - reflexivity.
  - exact H.
Defined.

(** X14.  With the key in place the controller calls the provider once in
    every execution of a node, and so between one and four times in a run:
    a run costs at most four provider calls. *)
Theorem provider_calls_are_bounded (R : runtime) (status : bool)
    (resume job : option pystr) (w : world) :
  has_key R = true ->
  let fin := optimize_resume_iterative R status resume job w in
  calls (snd fin) - calls w
  = (node_runs Drafter (snd fin) - node_runs Drafter w)
    + (node_runs Grader (snd fin) - node_runs Grader w) /\
  calls w + 1 <= calls (snd fin) <= calls w + 4.
Proof.
  intros Hkey fin.
  destruct (controller_run R status resume job w) as (n & Hn & Hrun & _).
  pose proof (run_calls R status n _ w _ Hrun Hkey) as (Hc & Hlow).
  pose proof (run_counts R status n _ w _ Hrun) as (_ & Hd & Hg & _).
  assert (HfD : node_runs Drafter (snd fin)
                = node_runs Drafter
                    (snd (graph_invoke R status RECURSION_LIMIT Drafter
                            (initial_state resume job) w)))
    by apply optimize_node_runs.
  assert (HfG : node_runs Grader (snd fin)
                = node_runs Grader
                    (snd (graph_invoke R status RECURSION_LIMIT Drafter
                            (initial_state resume job) w)))
    by apply optimize_node_runs.
  assert (HfC : calls (snd fin)
                = calls (snd (graph_invoke R status RECURSION_LIMIT Drafter
                                (initial_state resume job) w))).
  { unfold fin. rewrite optimize_eq.
    destruct (graph_invoke R status RECURSION_LIMIT Drafter (initial_state resume job) w)
      as [[final_state|e] w']; cbn [snd].
    - apply calls_told.
    - destruct (is_Exception e); cbn [snd]; [apply calls_told|reflexivity]. }
  split; lia.
Qed.

(** Two rounds with a provider whose replies are all empty: four calls. *)
Lemma provider_calls_are_bounded_witness :
  calls (snd (optimize_resume_iterative (scripted_runtime true []) false
                (Some (lit "cv")) (Some (lit "job")) world0)) <= 4.
Proof.
  destruct (provider_calls_are_bounded (scripted_runtime true []) false
              (Some (lit "cv")) (Some (lit "job")) world0) as (_ & _ & H).
  - reflexivity.
  - exact H.
Defined.

(** ** Deep Analysis *)

Section AnalysisProofs.
Variable R : runtime.

Lemma analysis_of_raises raw e : analysis_of R raw = Raise e -> is_Exception e = true.
Proof.
  unfold analysis_of. intros H. destruct raw as [|c raw]; [discriminate|].
  destruct (truthy (_extract_json (json_loads R) (c :: raw))); [|discriminate].
  destruct (py_get _ (lit "score") _) as [sc|e1] eqn:E1.
  - destruct (py_int sc) as [z|e2] eqn:E2.
    + destruct (py_get _ (lit "analysis") _) as [a|e3] eqn:E3; [discriminate|].
      inversion H; subst. eapply py_get_raises; eassumption.
    + inversion H; subst. eapply py_int_raises; eassumption.
  - inversion H; subst. eapply py_get_raises; eassumption.
Qed.

(** [analyze_fit_deep], as a function of the reply it receives. *)
Lemma analyze_fit_deep_eq resume job w :
  analyze_fit_deep R resume job w =
    if has_key R then
      (match llm_reply R (calls w) (analysis_messages resume job) with
       | Raise e => if is_Exception e then Ok no_analysis else Raise e
       | Ok resp =>
           match _get_content resp (format_other R) with
           | Raise _ => Ok no_analysis
           | Ok raw =>
               match analysis_of R raw with
               | Raise _ => Ok no_analysis
               | Ok a => Ok a
               end
           end
       end, asked (analysis_messages resume job) w)
    else (Raise StopException, note (EvStError MISSING_KEY) w).
Proof.
  unfold analyze_fit_deep, try_except.
  cbv beta iota zeta delta [bind _get_llm llm_invoke lift emit ret raise].
  destruct (has_key R); [|reflexivity].
  destruct (llm_reply R (calls w) (analysis_messages resume job)) as [resp|e].
  - destruct (_get_content resp (format_other R)) as [raw|e] eqn:Hc.
    + destruct (analysis_of R raw) as [a|e] eqn:Ha; [reflexivity|].
      rewrite (analysis_of_raises raw e Ha). reflexivity.
    + rewrite (get_content_raises resp _ e Hc). reflexivity.
  - destruct (is_Exception e); reflexivity.
Qed.

Lemma analysis_of_dict raw d :
  raw <> [] -> _extract_json (json_loads R) raw = PDict d -> d <> ∅ ->
  analysis_of R raw =
    match py_int (default (PInt 0) (d !! lit "score")) with
    | Ok z => Ok {| analysis_score := z;
                    analysis_text :=
                      py_str R (default (PStr COULD_NOT_ANALYZE) (d !! lit "analysis")) |}
    | Raise e => Raise e
    end.
Proof.
  intros Hraw Hparsed Hd. unfold analysis_of. destruct raw as [|c raw]; [congruence|].
  rewrite Hparsed. cbn [truthy py_get]. rewrite bool_decide_eq_false_2 by exact Hd.
  cbn [negb]. destruct (py_int _); reflexivity.
Qed.

End AnalysisProofs.

(** X15.  [analyze_fit_deep] answers every failure that is an instance of
    [Exception] with score 0 and [Could not analyze]: a provider that
    raises, content that cannot be stripped, a decoded value that is no dict
    and a score [int()] rejects all give this analysis, and so do an empty
    reply and a reply in which nothing is decoded.  It calls the provider at
    most once.  What it lets through is an exception that is no instance of
    [Exception]: the [StopException] of a missing key, raised before the
    provider is called, or such an exception of the provider. *)
Theorem analyze_fit_deep_degrades (R : runtime) (resume job : option pystr) (w : world) :
  let fin := analyze_fit_deep R resume job w in
  let reply := llm_reply R (calls w) (analysis_messages resume job) in
  (has_key R = false ->
     fin = (Raise StopException, note (EvStError MISSING_KEY) w)) /\
  (has_key R = true -> forall e, reply = Raise e ->
     fst fin = if is_Exception e then Ok no_analysis else Raise e) /\
  (has_key R = true -> forall resp, reply = Ok resp ->
     exists a, fst fin = Ok a /\
       (forall e, _get_content resp (format_other R) = Raise e -> a = no_analysis) /\
       (forall raw, _get_content resp (format_other R) = Ok raw ->
          (raw = [] \/ truthy (_extract_json (json_loads R) raw) = false \/
           (exists e, analysis_of R raw = Raise e)) -> a = no_analysis)) /\
  calls w <= calls (snd fin) <= calls w + 1.
Proof.
  intros fin reply. unfold fin. rewrite analyze_fit_deep_eq. fold reply.
  split; [|split; [|split]].
  - intros ->. reflexivity.
  - intros -> e ->. reflexivity.
  - intros -> resp ->. cbn [fst].
    destruct (_get_content resp (format_other R)) as [raw|e] eqn:Hc.
    + destruct (analysis_of R raw) as [a|e] eqn:Ha.
      * exists a. split; [reflexivity|]. split; [discriminate|].
        intros raw0 Hraw0. injection Hraw0 as <-. intros [->|[Ht|(e & He)]].
        -- cbn in Ha. congruence.
        -- unfold analysis_of in Ha. destruct raw; [congruence|]. rewrite Ht in Ha. congruence.
        -- congruence.
      * exists no_analysis. split; [reflexivity|]. split; [reflexivity|].
        intros; reflexivity.
    + exists no_analysis. split; [reflexivity|]. split; [reflexivity|]. discriminate.
  - destruct (has_key R); cbn [snd]; [rewrite calls_asked|rewrite calls_note]; lia.
Qed.

(** A provider that times out: the analysis is the fallback. *)
Lemma analyze_fit_deep_degrades_witness :
  fst (analyze_fit_deep (scripted_runtime true [Raise (ProviderError true (lit "timed out"))])
         (Some (lit "cv")) (Some (lit "job")) world0) = Ok no_analysis.
Proof.
  destruct (analyze_fit_deep_degrades
              (scripted_runtime true [Raise (ProviderError true (lit "timed out"))])
              (Some (lit "cv")) (Some (lit "job")) world0) as (_ & H & _).
  apply (H eq_refl (ProviderError true (lit "timed out"))). reflexivity.
Defined.

(** X16.  The score [analyze_fit_deep] returns is [int()] of the [score]
    field of the decoded reply as it is: nothing holds it between 0 and 100.
    The analysis is [str()] of the [analysis] field, [Could not analyze]
    when the field is missing.  A score that [int()] rejects costs the
    analysis text as well: the fallback is returned. *)
Theorem analyze_fit_deep_score (R : runtime) (resume job : option pystr) (w : world)
    (resp : response) (raw : pystr) (d : gmap pystr pyval) :
  has_key R = true ->
  llm_reply R (calls w) (analysis_messages resume job) = Ok resp ->
  _get_content resp (format_other R) = Ok raw ->
  raw <> [] ->
  _extract_json (json_loads R) raw = PDict d ->
  (forall z, d !! lit "score" = Some (PInt z) ->
     fst (analyze_fit_deep R resume job w)
     = Ok {| analysis_score := z;
             analysis_text :=
               py_str R (default (PStr COULD_NOT_ANALYZE) (d !! lit "analysis")) |}) /\
  (forall s, d !! lit "score" = Some (PStr s) -> int_of_str s = None ->
     fst (analyze_fit_deep R resume job w) = Ok no_analysis) /\
  (d <> ∅ -> d !! lit "score" = None ->
     fst (analyze_fit_deep R resume job w)
     = Ok {| analysis_score := 0;
             analysis_text :=
               py_str R (default (PStr COULD_NOT_ANALYZE) (d !! lit "analysis")) |}).
Proof.
  intros Hkey Hreply Hcontent Hraw Hparsed.
  rewrite analyze_fit_deep_eq, Hkey, Hreply, Hcontent. cbn [fst].
  split; [|split].
  - intros z Hz.
    assert (Hd : d <> ∅) by (intros ->; rewrite lookup_empty in Hz; discriminate).
    rewrite (analysis_of_dict R raw d Hraw Hparsed Hd), Hz. reflexivity.
  - intros s Hs Hint.
    assert (Hd : d <> ∅) by (intros ->; rewrite lookup_empty in Hs; discriminate).
    rewrite (analysis_of_dict R raw d Hraw Hparsed Hd), Hs. cbn. rewrite Hint. reflexivity.
  - intros Hd Hnone.
    rewrite (analysis_of_dict R raw d Hraw Hparsed Hd), Hnone. reflexivity.
Qed.

(** A reply with the score 250. *)
Lemma analyze_fit_deep_score_witness :
  fst (analyze_fit_deep
         (scripted_runtime true [says (json_analysis (lit "250") (lit "strong"))])
         (Some (lit "cv")) (Some (lit "job")) world0)
  = Ok {| analysis_score := 250; analysis_text := lit "strong" |}.
Proof.
  edestruct (analyze_fit_deep_score
               (scripted_runtime true [says (json_analysis (lit "250") (lit "strong"))])
               (Some (lit "cv")) (Some (lit "job")) world0) as (H & _).
  - reflexivity.
  - reflexivity.
  - reflexivity.
  - discriminate.
  - vm_compute. reflexivity.
  - rewrite (H 250%Z); [reflexivity|]. reflexivity.
Defined.

(** ** The chat *)

Lemma recent_of_short {A} (l : list A) : length l <= CHAT_HISTORY_LIMIT -> recent_of l = l.
Proof.
  intros H. unfold recent_of. replace (length l - CHAT_HISTORY_LIMIT) with 0 by lia.
  reflexivity.
Qed.

Lemma recent_of_app {A} (old recent : list A) :
  length recent = CHAT_HISTORY_LIMIT -> recent_of (old ++ recent) = recent.
Proof.
  intros H. unfold recent_of. rewrite length_app, H.
  replace (length old + CHAT_HISTORY_LIMIT - CHAT_HISTORY_LIMIT) with (length old) by lia.
  apply drop_app_length.
Qed.

Lemma length_recent_of {A} (l : list A) :
  length (recent_of l) = Nat.min CHAT_HISTORY_LIMIT (length l).
Proof. unfold recent_of. rewrite length_drop. lia. Qed.

Section ChatProofs.
Variable R : runtime.

(** [chat_with_context], as a function of its prompt and of the reply. *)
Lemma chat_with_context_eq resume job user_msg history w :
  chat_with_context R resume job user_msg history w =
    match chat_prompt R resume job user_msg history with
    | Raise e => (Raise e, w)
    | Ok prompt =>
        if has_key R then
          (match llm_reply R (calls w) [(RoleHuman, prompt)] with
           | Raise e => Raise e
           | Ok resp =>
               match _get_content resp (format_other R) with
               | Raise e => Raise e
               | Ok raw => Ok (str_or raw CHAT_UNAVAILABLE)
               end
           end, asked [(RoleHuman, prompt)] w)
        else (Raise StopException, note (EvStError MISSING_KEY) w)
    end.
Proof.
  unfold chat_with_context.
  cbv beta iota zeta delta [bind _get_llm llm_invoke lift emit ret raise].
  destruct (chat_prompt R resume job user_msg history) as [prompt|e]; [|reflexivity].
  destruct (has_key R); [|reflexivity].
  destruct (llm_reply R (calls w) [(RoleHuman, prompt)]) as [resp|e]; [|reflexivity].
  destruct (_get_content resp (format_other R)); reflexivity.
Qed.

End ChatProofs.

(** X17.  A string [chat_with_context] returns is never empty: it is the
    stripped content of the reply, or the [Chat unavailable] line when that
    content is empty.  Nothing in it catches an exception: what the provider
    raises reaches the caller as it is, and without the key the
    [StopException] does, before any call. *)
Theorem chat_with_context_answers (R : runtime) (resume job : option pystr)
    (user_msg : pystr) (history : option (list pyval)) (w : world) :
  let fin := chat_with_context R resume job user_msg history w in
  (forall s w', fin = (Ok s, w') -> s <> []) /\
  (forall prompt, chat_prompt R resume job user_msg history = Ok prompt ->
     (has_key R = false ->
        fin = (Raise StopException, note (EvStError MISSING_KEY) w)) /\
     (has_key R = true -> forall e,
        llm_reply R (calls w) [(RoleHuman, prompt)] = Raise e -> fst fin = Raise e) /\
     (has_key R = true -> forall resp raw,
        llm_reply R (calls w) [(RoleHuman, prompt)] = Ok resp ->
        _get_content resp (format_other R) = Ok raw ->
        fst fin = Ok (str_or raw CHAT_UNAVAILABLE))).
Proof.
  intros fin. unfold fin. rewrite chat_with_context_eq. split.
  - intros s w'. destruct (chat_prompt R resume job user_msg history) as [prompt|e];
      [|discriminate].
    destruct (has_key R); [|discriminate].
    destruct (llm_reply R (calls w) [(RoleHuman, prompt)]) as [resp|e]; [|discriminate].
    destruct (_get_content resp (format_other R)) as [raw|e]; [|discriminate].
    intros H. injection H as <- _. apply str_or_nonempty. right. discriminate.
  - intros prompt ->. split; [|split].
    + intros ->. reflexivity.
    + intros -> e ->. reflexivity.
    + intros -> resp raw -> ->. reflexivity.
Qed.

(** A provider that answers with blanks only. *)
Lemma chat_with_context_answers_witness :
  fst (chat_with_context (scripted_runtime true [says (lit "   ")])
         (Some (lit "cv")) (Some (lit "job")) (lit "Is it remote?") None world0)
  = Ok CHAT_UNAVAILABLE.
Proof.
  edestruct (chat_with_context_answers (scripted_runtime true [says (lit "   ")])
               (Some (lit "cv")) (Some (lit "job")) (lit "Is it remote?") None world0)
    as (_ & H).
  edestruct H as (_ & _ & Hok); [reflexivity|].
  rewrite (Hok eq_refl (RMessage (PStr (lit "   "))) []); reflexivity.
Defined.

(** X18.  [chat_with_context] looks at the last three entries of the history
    and at nothing before them: older entries change neither the prompt nor
    the outcome, whatever they are; a missing history is an empty one. *)
Theorem chat_history_window (R : runtime) (resume job : option pystr) (user_msg : pystr) :
  (forall old recent : list pyval,
     length recent = CHAT_HISTORY_LIMIT ->
     chat_prompt R resume job user_msg (Some (old ++ recent))
     = chat_prompt R resume job user_msg (Some recent) /\
     forall w,
       chat_with_context R resume job user_msg (Some (old ++ recent)) w
       = chat_with_context R resume job user_msg (Some recent) w) /\
  (forall w,
     chat_with_context R resume job user_msg None w
     = chat_with_context R resume job user_msg (Some []) w).
Proof.
  split.
  - intros old recent Hlen.
    assert (Hp : chat_prompt R resume job user_msg (Some (old ++ recent))
                 = chat_prompt R resume job user_msg (Some recent)).
    { unfold chat_prompt. cbn [default from_option id].
      rewrite (recent_of_app old recent Hlen), (recent_of_short recent) by lia.
      reflexivity. }
    split; [exact Hp|]. intros w. rewrite !chat_with_context_eq, Hp. reflexivity.
  - intros w. reflexivity.
Qed.

(** Three entries behind one that is no dict at all. *)
Lemma chat_history_window_witness :
  chat_prompt (scripted_runtime true []) (Some (lit "cv")) (Some (lit "job")) (lit "And now?")
    (Some ([PInt 7] ++ [PDict ∅; PDict ∅; PDict ∅]))
  = chat_prompt (scripted_runtime true []) (Some (lit "cv")) (Some (lit "job")) (lit "And now?")
      (Some [PDict ∅; PDict ∅; PDict ∅]).
Proof.
  destruct (chat_history_window (scripted_runtime true []) (Some (lit "cv"))
              (Some (lit "job")) (lit "And now?")) as (H & _).
  apply (H [PInt 7] [PDict ∅; PDict ∅; PDict ∅]). reflexivity.
Defined.

Section StreamProofs.
Variable R : runtime.
Variable llm_stream : list chat_message -> list response * option exn.

Lemma stream_parts_trimmed chunks failure part :
  In part (parts (stream_parts R chunks failure)) -> part <> [] /\ trimmed part.
Proof.
  induction chunks as [|chunk chunks IH]; cbn [stream_parts]; [intros []|].
  destruct (_get_content chunk (format_other R)) as [[|c s]|e] eqn:Hc.
  - exact IH.
  - cbn [parts]. intros [<-|Hin]; [|exact (IH Hin)].
    split; [discriminate|].
    apply get_content_shape in Hc as [Hc|(x & ->)]; [discriminate|]. apply strip_trimmed.
  - intros [].
Qed.

Lemma history_messages_length recent msgs :
  history_messages recent = Ok msgs -> length msgs = length recent.
Proof.
  revert msgs. induction recent as [|m recent IH]; intros msgs H.
  - injection H as <-. reflexivity.
  - cbn [history_messages] in H.
    destruct (py_get m (lit "role") _) as [role|e]; [|discriminate].
    destruct (py_get m (lit "content") _) as [content|e]; [|discriminate].
    destruct (history_messages recent) as [later|e]; [|discriminate].
    injection H as <-. cbn [length]. rewrite (IH later eq_refl). reflexivity.
Qed.

Lemma history_messages_roles recent msgs :
  history_messages recent = Ok msgs ->
  Forall (fun m => fst m = ChatHuman \/ fst m = ChatAI) msgs.
Proof.
  revert msgs. induction recent as [|m recent IH]; intros msgs H.
  - injection H as <-. constructor.
  - cbn [history_messages] in H.
    destruct (py_get m (lit "role") _) as [role|e]; [|discriminate].
    destruct (py_get m (lit "content") _) as [content|e]; [|discriminate].
    destruct (history_messages recent) as [later|e]; [|discriminate].
    injection H as <-. constructor; [|apply IH; reflexivity].
    cbn [fst]. destruct (is_user role); [left|right]; reflexivity.
Qed.

End StreamProofs.

(** X19.  Every part [chat_stream] yields is a chunk's content stripped of
    the whitespace around it, and none is empty: a chunk of whitespace is
    dropped, and the blank that ends one chunk or begins the next is not in
    what the reader of the stream puts together. *)
Theorem chat_stream_parts_are_trimmed (R : runtime)
    (llm_stream : list chat_message -> list response * option exn)
    (resume job_desc : option pystr) (question : pystr)
    (history : option (list pyval)) (w : world) :
  forall part,
    In part (parts (fst (chat_stream R llm_stream resume job_desc question history w))) ->
    part <> [] /\ trimmed part.
Proof.
  intros part. unfold chat_stream.
  destruct (chat_messages resume job_desc question history) as [messages|e]; [|intros []].
  destruct (_get_llm R w) as [[[]|e] w']; [|intros []].
  destruct (llm_stream messages) as [chunks failure]. cbn [fst].
  apply stream_parts_trimmed.
Qed.

(** A stream of three chunks, the second of them a blank: two parts are
    yielded, and the first has lost the blank at its end. *)
Lemma chat_stream_parts_are_trimmed_witness :
  lit "Hello" <> [] /\ trimmed (lit "Hello").
Proof.
  apply (chat_stream_parts_are_trimmed (scripted_runtime true [])
           (fun _ => ([RMessage (PStr (lit "Hello ")); RMessage (PStr (lit " "));
                       RMessage (PStr (lit "world"))], None))
           None None (lit "hi") None world0).
  vm_compute. left. reflexivity.
Defined.

(** X20.  The messages [chat_stream] sends are the system message with the
    context, one message for each of the last three entries of the history
    at most, and the question as the last, human, message; an entry stands as
    a human message when its role is [user] and as an AI message otherwise. *)
Theorem chat_stream_messages (resume job_desc : option pystr)
    (question : pystr) (history : option (list pyval)) (messages : list chat_message) :
  chat_messages resume job_desc question history = Ok messages ->
  exists between,
    messages = (ChatSystem, PStr (chat_system_content resume job_desc))
               :: between ++ [(ChatHuman, PStr question)] /\
    length between = Nat.min CHAT_HISTORY_LIMIT (length (default [] history)) /\
    Forall (fun m => fst m = ChatHuman \/ fst m = ChatAI) between /\
    length messages <= 2 + CHAT_HISTORY_LIMIT.
Proof.
  unfold chat_messages.
  destruct (history_messages (recent_of (default [] history))) as [between|e] eqn:Hb;
    [|discriminate].
  intros H. injection H as <-. exists between.
  pose proof (history_messages_length _ _ Hb) as Hlen.
  rewrite length_recent_of in Hlen.
  split; [reflexivity|]. split; [exact Hlen|].
  split; [eapply history_messages_roles; exact Hb|].
  cbn [length]. rewrite length_app. cbn [length]. lia.
Qed.

(** A history of four entries: the first one is left out. *)
Lemma chat_stream_messages_witness :
  exists messages,
    chat_messages (Some (lit "cv")) (Some (lit "job")) (lit "And now?")
      (Some [PDict ∅; PDict (<[lit "role" := PStr (lit "assistant")]> ∅); PDict ∅; PDict ∅])
    = Ok messages /\ length messages = 5.
Proof.
  eexists. split; [vm_compute; reflexivity|].
  edestruct (chat_stream_messages (Some (lit "cv"))
               (Some (lit "job")) (lit "And now?")
               (Some [PDict ∅; PDict (<[lit "role" := PStr (lit "assistant")]> ∅);
                      PDict ∅; PDict ∅]))
    as (between & Hm & Hlen & _).
  { vm_compute. reflexivity. }
  reflexivity.
Defined.

(** ** The end of a run *)

(** X21.  The graph of the controller ends normally in one of two ways only:
    the last grade is at least [SCORE_GOOD_ENOUGH], or the draft is the
    second one.  The state it ends with has been drafted once or twice, and
    still holds the resume and the job description the run was given. *)
Theorem run_ends_at_a_gate (R : runtime) (status : bool) (resume job : option pystr)
    (w : world) (st' : ResumeState) (w' : world) :
  graph_invoke R status RECURSION_LIMIT Drafter (initial_state resume job) w = (Ok st', w') ->
  ((SCORE_GOOD_ENOUGH <= score st')%Z \/ revision_count st' = MAX_REVISION_RETRIES) /\
  (1 <= revision_count st' <= MAX_REVISION_RETRIES)%Z /\
  original_resume st' = default [] resume /\
  job_description st' = default [] job.
Proof.
  intros Hout.
  destruct (controller_run R status resume job w) as (n & Hn & Hrun & _).
  pose proof (run_counts R status n _ w _ Hrun) as (_ & _ & _ & Hfin).
  rewrite Hout in Hrun, Hfin. cbn [fst] in Hfin. destruct Hfin as (Hrc & _ & Hend).
  cbn [initial_state revision_count] in Hrc.
  assert (Hkeep : original_resume st' = default [] resume /\
                  job_description st' = default [] job).
  { apply (run_invariant R status
             (fun st => original_resume st = default [] resume /\
                        job_description st = default [] job))
      with (n := n) (st := initial_state resume job) (w := w) (res := (Ok st', w')).
    - intros st v st1 v1 (Ho & Hj) Hr.
      inversion Hr as [| |u1 w1 u2 w2 H1 H2 Heq]; subst. cbn. split; assumption.
    - exact Hrun.
    - split; reflexivity.
    - reflexivity. }
  unfold MAX_REVISION_RETRIES. split; [|split; [lia|exact Hkeep]].
  destruct (Z_lt_le_dec (score st') SCORE_GOOD_ENOUGH) as [Hlow|Hhigh]; [|left; exact Hhigh].
  right. destruct (Z.eq_dec (revision_count st') 2%Z) as [E|E]; [exact E|exfalso].
  assert (Hgo : router st' = ToDrafter).
  { apply router_ToDrafter. unfold MAX_REVISION_RETRIES. split; [exact Hlow|lia]. }
  congruence.
Qed.

(** A provider whose replies are all empty: the run ends behind the second
    draft. *)
Lemma run_ends_at_a_gate_witness :
  exists st' w',
    graph_invoke (scripted_runtime true []) false RECURSION_LIMIT Drafter
      (initial_state (Some (lit "cv")) (Some (lit "job"))) world0 = (Ok st', w') /\
    original_resume st' = lit "cv".
Proof.
  do 2 eexists. split; [vm_compute; reflexivity|].
  edestruct (run_ends_at_a_gate (scripted_runtime true []) false
               (Some (lit "cv")) (Some (lit "job")) world0) as (_ & _ & H & _).
  { vm_compute. reflexivity. }
  exact H.
Defined.

(** ** The label in tokens *)

Lemma ratio_ge (n d : positive) (a b : nat) :
  0 < b ->
  ((Z.pos n # d <= float_of_len a / float_of_len b)%Q
   <-> (Z.pos n * Z.of_nat b <= Z.pos d * Z.of_nat a)%Z).
Proof.
  intros Hb. pose proof (float_of_len_pos b Hb) as Hpos.
  pose proof (float_of_len_nonzero b Hb) as Hnz.
  assert (Hscale : ((Z.pos n # d) * float_of_len b <= float_of_len a)%Q
                   <-> (Z.pos n * Z.of_nat b <= Z.pos d * Z.of_nat a)%Z).
  { unfold Qle, Qmult, float_of_len, inject_Z. cbn [Qnum Qden].
    rewrite Pos.mul_1_r. lia. }
  rewrite <- Hscale. split.
  - intros H. apply (Qmult_le_compat_r _ _ (float_of_len b)) in H;
      [|apply Qlt_le_weak; exact Hpos].
    rewrite (Qmult_comm (float_of_len a / float_of_len b)) in H.
    rewrite Qmult_div_r in H by exact Hnz. exact H.
  - intros H. apply Qle_shift_div_l; assumption.
Qed.

(** X22.  The label read in tokens: a posting that has tokens is a Good Fit
    exactly when at least a quarter of them are in the resume, and Not
    Recommended exactly when fewer than 12 in 100 are. *)
Theorem fit_label_in_tokens (r j : gset pystr) :
  j <> ∅ ->
  (_fit_label (_overlap_ratio r j) = GoodFit <-> size j <= 4 * size (r ∩ j)) /\
  (_fit_label (_overlap_ratio r j) = NotRecommended <-> 25 * size (r ∩ j) < 3 * size j).
Proof.
  intros Hj. pose proof (size_pos_of_nonempty j Hj) as Hpos.
  unfold _overlap_ratio. rewrite bool_decide_eq_false_2 by exact Hj. cbv zeta.
  unfold _fit_label, OVERLAP_GOOD, OVERLAP_STRETCH.
  pose proof (ratio_ge 25 100 (size (r ∩ j)) (size j) Hpos) as Hg.
  pose proof (ratio_ge 12 100 (size (r ∩ j)) (size j) Hpos) as Hs.
  destruct (Qle_bool (25 # 100) _) eqn:Eg.
  - apply Qle_bool_iff in Eg. apply Hg in Eg. split; split; try discriminate; intros; try lia.
    reflexivity.
  - assert (Hng : ~ (25 * Z.of_nat (size j) <= 100 * Z.of_nat (size (r ∩ j)))%Z).
    { intros H. apply Hg in H. apply Qle_bool_iff in H. congruence. }
    destruct (Qle_bool (12 # 100) _) eqn:Es.
    + apply Qle_bool_iff in Es. apply Hs in Es.
      split; split; try discriminate; intros; lia.
    + assert (Hns : ~ (12 * Z.of_nat (size j) <= 100 * Z.of_nat (size (r ∩ j)))%Z).
      { intros H. apply Hs in H. apply Qle_bool_iff in H. congruence. }
      split; split; try discriminate; intros; try lia. reflexivity.
Qed.

(** One token in four is enough. *)
Lemma fit_label_in_tokens_witness :
  _fit_label (_overlap_ratio {[ lit "python" ]}
                {[ lit "python"; lit "django"; lit "sql"; lit "aws" ]}) = GoodFit.
Proof.
  destruct (fit_label_in_tokens {[ lit "python" ]}
              {[ lit "python"; lit "django"; lit "sql"; lit "aws" ]}) as (H & _).
  - intros E. apply (f_equal size) in E. vm_compute in E. discriminate.
  - apply H. vm_compute. lia.
Defined.
